(** * recurrent: a single-task recurring scheduler (scheduler.go)

    The scheduler of scheduler.go is a handful of goroutines that talk over
    channels. This development embeds it as a labelled transition system:
    one program counter per goroutine, one record per channel that carries
    state, and one event per communication or call. [exec] gives the effect
    of one event, [run] the effect of a schedule (a list of events). Every
    definition is executable, so a schedule can be evaluated.

    Channels of the source and where they live in the model
      s.quit     unbuffered, only ever closed         [quit]
      s.signal   buffered, capacity 1                 [signal]
      withChan's local quit (hammer), only closed     [hquit]
      hammer's ch / convert's ch2, unbuffered         a send is a rendezvous
                                                      with throttle's range
      throttle's ch3, unbuffered                      a send is a rendezvous
                                                      with the loop's select
    The element type is struct{} everywhere, so a buffer is its length. *)

From Stdlib Require Import ZArith List Bool String Lia Arith.
Import ListNotations.
Open Scope string_scope.
Open Scope nat_scope.

(** ** Results of an operation that may block or panic *)

Inductive result (A : Type) : Type :=
| Ok (a : A)
| NotEnabled
| Panic (msg : string).
Arguments Ok {A} a.
Arguments NotEnabled {A}.
Arguments Panic {A} msg.

Definition bind {A B : Type} (r : result A) (k : A -> result B) : result B :=
  match r with
  | Ok a => k a
  | NotEnabled => NotEnabled
  | Panic m => Panic m
  end.

Notation "x <- r ;; k" := (bind r (fun x => k))
  (at level 61, r at next level, right associativity).

(** ** Go channels of struct{} *)

Module Chan.

Record t : Type := mk { len : nat; cap : nat; closed : bool }.

(** make(chan struct{}, n) *)
Definition make (n : nat) : t := mk 0 n false.

(** select { case c <- struct{}{}: default: } *)
Definition try_send (c : t) : result t :=
  if closed c then Panic "send on closed channel"
  else if len c <? cap c then Ok (mk (S (len c)) (cap c) false)
  else Ok c.

(** <-c : a buffered element if there is one, the zero value once the
    channel is closed, otherwise the receiver waits. *)
Definition recv (c : t) : result t :=
  match len c with
  | S n => Ok (mk n (cap c) (closed c))
  | O => if closed c then Ok c else NotEnabled
  end.

(** close(c) *)
Definition close (c : t) : result t :=
  if closed c then Panic "close of closed channel"
  else Ok (mk (len c) (cap c) true).

End Chan.

(** ** The clock *)

Module Clock.

(** Modelled from the spec: the Clock collaborator (glock.Clock, a package
    outside this repository). "after(duration)" produces a one-shot
    readiness event after the duration has elapsed: the channel returned
    by After at time [now] is ready from time [now + d] on. Instants are
    integers, in nanoseconds, and the environment advances the clock. *)
Definition After (now d : Z) : Z := (now + d)%Z.

Definition ready (deadline now : Z) : bool := (deadline <=? now)%Z.

End Clock.

(** ** The scheduler struct and its goroutines *)

(** The two values the withChan field takes: the default closure of
    NewScheduler, built on hammer, and the closure installed by
    WithThrottle, built on a ticker and convert. *)
Inductive chan_source : Type :=
| UseHammer
| UseTicker (minInterval : Z).

(** Program counter of the goroutine launched by Start. *)
Inductive loop_pc : Type :=
| LCreated        (* Start not called *)
| LSpawned        (* go func() issued, body not entered *)
| LSelect         (* blocked in the select *)
| LTarget         (* received from t, s.target() pending *)
| LSignal         (* received from clock.After, s.Signal() pending *)
| LReturn         (* received from s.quit; withChan's defer pending *)
| LClose          (* withChan returned; defer close(s.signal) pending *)
| LDone.

(** hammer: for { select { case ch <- struct{}{}: case <-quit: return } } *)
Inductive hammer_pc : Type := HSelect | HDone.

(** convert: for range ch1 { ch2 <- struct{}{} } *)
Inductive convert_pc : Type := CRange | CSend.

Inductive source_pc : Type :=
| NoSource
| Hammer (pc : hammer_pc)
| Convert (pc : convert_pc).

(** throttle: for range ch1 { ch3 <- <-ch2 } *)
Inductive throttle_pc : Type :=
| TNone
| TRange          (* waiting on ch1 *)
| TRecv           (* took a value from ch1, waiting on ch2 *)
| TSend           (* took a value from ch2, sending on ch3 *)
| TDone.          (* ch1 was closed; ch3 closed *)

Record scheduler : Type := mkScheduler {
  (* fields of the struct *)
  interval : Z;                 (* time.Duration, nanoseconds *)
  withChan : chan_source;
  quit : Chan.t;
  signal : Chan.t;
  (* goroutines *)
  loop : loop_pc;
  source : source_pc;
  thr : throttle_pc;
  hquit : Chan.t;               (* the quit of the default withChan *)
  (* the clock: current time, the channel returned by the last After
     call becomes ready at [deadline]; arguments recorded as mockClock
     does *)
  now : Z;
  deadline : Z;
  afterArgs : list Z;
  tickerArgs : list Z;
  tickerStopped : bool;
  (* number of completed calls of target *)
  invocations : nat
}.

Definition set_interval (d : Z) (s : scheduler) : scheduler :=
  mkScheduler d (withChan s) (quit s) (signal s) (loop s) (source s) (thr s)
    (hquit s) (now s) (deadline s) (afterArgs s) (tickerArgs s)
    (tickerStopped s) (invocations s).

Definition set_withChan (w : chan_source) (s : scheduler) : scheduler :=
  mkScheduler (interval s) w (quit s) (signal s) (loop s) (source s) (thr s)
    (hquit s) (now s) (deadline s) (afterArgs s) (tickerArgs s)
    (tickerStopped s) (invocations s).

Definition set_quit (c : Chan.t) (s : scheduler) : scheduler :=
  mkScheduler (interval s) (withChan s) c (signal s) (loop s) (source s)
    (thr s) (hquit s) (now s) (deadline s) (afterArgs s) (tickerArgs s)
    (tickerStopped s) (invocations s).

Definition set_signal (c : Chan.t) (s : scheduler) : scheduler :=
  mkScheduler (interval s) (withChan s) (quit s) c (loop s) (source s)
    (thr s) (hquit s) (now s) (deadline s) (afterArgs s) (tickerArgs s)
    (tickerStopped s) (invocations s).

Definition set_loop (l : loop_pc) (s : scheduler) : scheduler :=
  mkScheduler (interval s) (withChan s) (quit s) (signal s) l (source s)
    (thr s) (hquit s) (now s) (deadline s) (afterArgs s) (tickerArgs s)
    (tickerStopped s) (invocations s).

Definition set_source (p : source_pc) (s : scheduler) : scheduler :=
  mkScheduler (interval s) (withChan s) (quit s) (signal s) (loop s) p
    (thr s) (hquit s) (now s) (deadline s) (afterArgs s) (tickerArgs s)
    (tickerStopped s) (invocations s).

Definition set_thr (p : throttle_pc) (s : scheduler) : scheduler :=
  mkScheduler (interval s) (withChan s) (quit s) (signal s) (loop s)
    (source s) p (hquit s) (now s) (deadline s) (afterArgs s) (tickerArgs s)
    (tickerStopped s) (invocations s).

Definition set_hquit (c : Chan.t) (s : scheduler) : scheduler :=
  mkScheduler (interval s) (withChan s) (quit s) (signal s) (loop s)
    (source s) (thr s) c (now s) (deadline s) (afterArgs s) (tickerArgs s)
    (tickerStopped s) (invocations s).

Definition set_now (t : Z) (s : scheduler) : scheduler :=
  mkScheduler (interval s) (withChan s) (quit s) (signal s) (loop s)
    (source s) (thr s) (hquit s) t (deadline s) (afterArgs s) (tickerArgs s)
    (tickerStopped s) (invocations s).

Definition set_tickerStopped (b : bool) (s : scheduler) : scheduler :=
  mkScheduler (interval s) (withChan s) (quit s) (signal s) (loop s)
    (source s) (thr s) (hquit s) (now s) (deadline s) (afterArgs s)
    (tickerArgs s) b (invocations s).

(** ** Construction *)

Inductive ConfigFunc : Type :=
| WithInterval (d : Z)
| WithThrottle (minInterval : Z).

Definition second : Z := 1000000000.

Definition apply_config (s : scheduler) (c : ConfigFunc) : scheduler :=
  match c with
  | WithInterval d => set_interval d s
  | WithThrottle m => set_withChan (UseTicker m) s
  end.

Definition NewScheduler (configs : list ConfigFunc) : scheduler :=
  fold_left apply_config configs
    (mkScheduler second UseHammer (Chan.make 0) (Chan.make 1)
       LCreated NoSource TNone (Chan.make 0) 0 0 [] [] false 0).

(** ** Methods *)

(** Signal: the non-blocking send on s.signal. A receiver already parked
    on the channel gets the element handed over directly; here the element
    goes through the buffer and the receiver takes it in a step of its own
    ([ThrottleRecvSignal]), which reaches the same states. *)
Definition Signal (s : scheduler) : result scheduler :=
  c <- Chan.try_send (signal s) ;; Ok (set_signal c s).

(** Stop: close(s.quit). *)
Definition Stop (s : scheduler) : result scheduler :=
  c <- Chan.close (quit s) ;; Ok (set_quit c s).

(** Start issues the go statement; the body runs as the loop goroutine. *)
Definition Start (s : scheduler) : result scheduler :=
  match loop s with
  | LCreated => Ok (set_loop LSpawned s)
  | _ => NotEnabled      (* one loop goroutine is modelled *)
  end.

(** Entering the select evaluates s.clock.After(s.interval) afresh. *)
Definition enter_select (s : scheduler) : scheduler :=
  mkScheduler (interval s) (withChan s) (quit s) (signal s) LSelect
    (source s) (thr s) (hquit s) (now s) (Clock.After (now s) (interval s))
    (afterArgs s ++ [interval s]) (tickerArgs s) (tickerStopped s)
    (invocations s).

(** The call of s.target(): one more completed invocation. *)
Definition call_target (s : scheduler) : scheduler :=
  mkScheduler (interval s) (withChan s) (quit s) (signal s) (loop s)
    (source s) (thr s) (hquit s) (now s) (deadline s) (afterArgs s)
    (tickerArgs s) (tickerStopped s) (S (invocations s)).

(** s.withChan(f) up to the first select of f: the source goroutine
    (hammer, or convert over a new ticker) and throttle are launched. *)
Definition loop_init (s : scheduler) : scheduler :=
  match withChan s with
  | UseHammer =>
      enter_select (set_thr TRange (set_source (Hammer HSelect)
                      (set_hquit (Chan.make 0) s)))
  | UseTicker m =>
      enter_select (set_thr TRange (set_source (Convert CRange)
        (mkScheduler (interval s) (withChan s) (quit s) (signal s) (loop s)
           (source s) (thr s) (hquit s) (now s) (deadline s) (afterArgs s)
           (tickerArgs s ++ [m]) (tickerStopped s) (invocations s))))
  end.

(** The deferred statement of withChan: close(quit) of the hammer
    variant, ticker.Stop() of the ticker variant. *)
Definition withChan_defer (s : scheduler) : result scheduler :=
  match withChan s with
  | UseHammer => c <- Chan.close (hquit s) ;; Ok (set_hquit c s)
  | UseTicker _ => Ok (set_tickerStopped true s)
  end.

(** ** Events and their effect *)

Inductive event : Type :=
(* calls made by the user of the scheduler *)
| CallStart
| CallStop
| CallSignal
(* the clock *)
| Advance (d : Z)        (* d nanoseconds pass *)
| Tick                   (* the ticker's channel delivers to convert *)
(* the goroutine of Start *)
| LoopInit               (* withChan, throttle, first entry of the select *)
| LoopRecvT              (* case <-t *)
| LoopTarget             (* s.target() *)
| LoopRecvAfter          (* case <-s.clock.After(s.interval) *)
| LoopSignal             (* s.Signal() *)
| LoopRecvQuit           (* case <-s.quit: return *)
| LoopDeferWithChan      (* deferred close(quit) or ticker.Stop() *)
| LoopDeferClose         (* defer close(s.signal) *)
(* hammer, convert, throttle *)
| SourceSend             (* ch <- struct{}{} meets throttle's range ch1 *)
| HammerQuit             (* case <-quit: return, then close(ch) *)
| ThrottleRecvSignal     (* <-ch2 *)
| ThrottleDone.          (* range over the closed ch1 ends; close(ch3) *)

Definition exec (e : event) (s : scheduler) : result scheduler :=
  match e with
  | CallStart => Start s
  | CallStop => Stop s
  | CallSignal => Signal s
  | Advance d => if (0 <=? d)%Z then Ok (set_now (now s + d) s) else NotEnabled
  | Tick =>
      match source s with
      | Convert CRange => Ok (set_source (Convert CSend) s)
      | _ => NotEnabled
      end
  | LoopInit =>
      match loop s with
      | LSpawned => Ok (loop_init s)
      | _ => NotEnabled
      end
  | LoopRecvT =>
      match loop s, thr s with
      | LSelect, TSend => Ok (set_loop LTarget (set_thr TRange s))
      | LSelect, TDone => Ok (set_loop LTarget s)
      | _, _ => NotEnabled
      end
  | LoopTarget =>
      match loop s with
      | LTarget => Ok (enter_select (call_target s))
      | _ => NotEnabled
      end
  | LoopRecvAfter =>
      match loop s with
      | LSelect =>
          if Clock.ready (deadline s) (now s) then Ok (set_loop LSignal s)
          else NotEnabled
      | _ => NotEnabled
      end
  | LoopSignal =>
      match loop s with
      | LSignal => s' <- Signal s ;; Ok (enter_select s')
      | _ => NotEnabled
      end
  | LoopRecvQuit =>
      match loop s with
      | LSelect =>
          if Chan.closed (quit s) then Ok (set_loop LReturn s) else NotEnabled
      | _ => NotEnabled
      end
  | LoopDeferWithChan =>
      match loop s with
      | LReturn => s' <- withChan_defer s ;; Ok (set_loop LClose s')
      | _ => NotEnabled
      end
  | LoopDeferClose =>
      match loop s with
      | LClose => c <- Chan.close (signal s) ;; Ok (set_loop LDone (set_signal c s))
      | _ => NotEnabled
      end
  | SourceSend =>
      match thr s, source s with
      | TRange, Hammer HSelect => Ok (set_thr TRecv s)
      | TRange, Convert CSend => Ok (set_thr TRecv (set_source (Convert CRange) s))
      | _, _ => NotEnabled
      end
  | HammerQuit =>
      match source s with
      | Hammer HSelect =>
          if Chan.closed (hquit s) then Ok (set_source (Hammer HDone) s)
          else NotEnabled
      | _ => NotEnabled
      end
  | ThrottleRecvSignal =>
      match thr s with
      | TRecv => c <- Chan.recv (signal s) ;; Ok (set_thr TSend (set_signal c s))
      | _ => NotEnabled
      end
  | ThrottleDone =>
      match thr s, source s with
      | TRange, Hammer HDone => Ok (set_thr TDone s)
      | _, _ => NotEnabled
      end
  end.

(** A schedule: the events in the order they happen. *)
Fixpoint run (tr : list event) (s : scheduler) : result scheduler :=
  match tr with
  | [] => Ok s
  | e :: tr' => s' <- exec e s ;; run tr' s'
  end.

(** ** Observations used by the properties *)

Definition exited (l : loop_pc) : bool :=
  match l with
  | LReturn | LClose | LDone => true
  | _ => false
  end.

Definition throttled (s : scheduler) : bool :=
  match withChan s with
  | UseTicker _ => true
  | UseHammer => false
  end.

Definition is_throttle (c : ConfigFunc) : bool :=
  match c with
  | WithThrottle _ => true
  | WithInterval _ => false
  end.

Definition event_eqb (a b : event) : bool :=
  match a, b with
  | CallStart, CallStart | CallStop, CallStop | CallSignal, CallSignal
  | Tick, Tick | LoopInit, LoopInit | LoopRecvT, LoopRecvT
  | LoopTarget, LoopTarget | LoopRecvAfter, LoopRecvAfter
  | LoopSignal, LoopSignal | LoopRecvQuit, LoopRecvQuit
  | LoopDeferWithChan, LoopDeferWithChan | LoopDeferClose, LoopDeferClose
  | SourceSend, SourceSend | HammerQuit, HammerQuit
  | ThrottleRecvSignal, ThrottleRecvSignal | ThrottleDone, ThrottleDone => true
  | Advance d1, Advance d2 => Z.eqb d1 d2
  | _, _ => false
  end.

(** Number of occurrences of an event in a schedule. *)
Definition count (e : event) (tr : list event) : nat :=
  List.length (filter (event_eqb e) tr).

(** The events the goroutines perform on their own; the others are calls
    of the user (Start, Stop, Signal) and readiness of the clock (time
    passing, a tick, the After channel). *)
Definition internal (e : event) : bool :=
  match e with
  | CallStart | CallStop | CallSignal | Advance _ | Tick | LoopRecvAfter => false
  | _ => true
  end.

Definition internal_events : list event :=
  [LoopInit; LoopRecvT; LoopTarget; LoopSignal; LoopRecvQuit;
   LoopDeferWithChan; LoopDeferClose; SourceSend; HammerQuit;
   ThrottleRecvSignal; ThrottleDone].

Definition enabled (e : event) (s : scheduler) : bool :=
  match exec e s with
  | NotEnabled => false
  | _ => true
  end.

(** No goroutine can move until the user or the clock acts. *)
Definition quiescent (s : scheduler) : bool :=
  forallb (fun e => negb (enabled e s)) internal_events.

Definition b2n (b : bool) : nat := if b then 1 else 0.

Definition thr_sending (s : scheduler) : bool :=
  match thr s with TSend => true | _ => false end.

Definition thr_receiving (s : scheduler) : bool :=
  match thr s with TRecv => true | _ => false end.

Definition loop_at_target (s : scheduler) : bool :=
  match loop s with LTarget => true | _ => false end.

Definition convert_sending (s : scheduler) : bool :=
  match source s with Convert CSend => true | _ => false end.

(** Signals that were accepted and have not yet led to a call of target:
    in the buffer, held by throttle, or received by the loop. *)
Definition pending (s : scheduler) : nat :=
  Chan.len (signal s) + b2n (thr_sending s) + b2n (loop_at_target s).

(** Ticks that were delivered and have not yet led to a call of target. *)
Definition permits (s : scheduler) : nat :=
  b2n (convert_sending s) + b2n (thr_receiving s) + b2n (thr_sending s)
  + b2n (loop_at_target s).

(** Facts that hold in every state a schedule reaches from NewScheduler. *)
Definition Inv (s : scheduler) : Prop :=
  Chan.cap (signal s) = 1 /\
  Chan.len (signal s) <= 1 /\
  Chan.closed (signal s) = match loop s with LDone => true | _ => false end /\
  (exited (loop s) = true -> Chan.closed (quit s) = true) /\
  (Chan.closed (hquit s) = true -> loop s = LClose \/ loop s = LDone) /\
  (source s = Hammer HDone -> Chan.closed (hquit s) = true) /\
  (thr s = TDone -> source s = Hammer HDone).

(** The ticker variant never has a hammer, so ch1 is never closed. *)
Definition gated (s : scheduler) : Prop :=
  throttled s = true /\
  (forall pc, source s <> Hammer pc) /\
  thr s <> TDone.

(** The hammer variant between Start and Stop. *)
Definition alive (s : scheduler) : bool :=
  negb (throttled s) && negb (Chan.closed (quit s))
  && negb (Chan.closed (signal s)) && (Chan.cap (signal s) =? 1)
  && (Chan.len (signal s) <=? 1)
  && match loop s, source s, thr s with
     | LSpawned, NoSource, TNone => true
     | (LSelect | LTarget), Hammer HSelect, (TRange | TRecv | TSend) =>
         negb (Chan.closed (hquit s))
     | _, _, _ => false
     end.

(** ** Schedules of the tests *)

(** TestExplicitFire: each Signal is followed by the events of one round,
    all internal, after which nothing more can move. *)
Fixpoint run_spaced (rounds : list (list event)) (s : scheduler)
  : result scheduler :=
  match rounds with
  | [] => Ok s
  | r :: rs =>
      s1 <- exec CallSignal s ;;
      s2 <- run r s1 ;;
      if forallb internal r && quiescent s2 then run_spaced rs s2
      else NotEnabled
  end.

(** One way for the goroutines to process a signal. *)
Definition process_signal : list event :=
  [ThrottleRecvSignal; LoopRecvT; LoopTarget; SourceSend].

(** TestThrottledExplicitFire: four calls of Signal per tick; after the
    tick the test waits until target has run. *)
Definition burst_round : list event :=
  [CallSignal; Tick; SourceSend; ThrottleRecvSignal; LoopRecvT; LoopTarget;
   CallSignal; CallSignal; CallSignal].

Definition throttled_explicit_fire : list event :=
  CallStart :: LoopInit :: List.concat (repeat burst_round 25).

Definition millisecond : Z := 1000000.

Definition invocations_of (r : result scheduler) : option nat :=
  match r with
  | Ok s => Some (invocations s)
  | _ => None
  end.



(** Steps the goroutines of the hammer variant can still take on their
    own: every internal step uses up one unit. *)
Definition work (s : scheduler) : nat :=
  4 * Chan.len (signal s)
  + match thr s with TSend => 3 | TRange => 1 | _ => 0 end
  + match loop s with LSpawned => 2 | LTarget => 1 | _ => 0 end.

(** ** Further observations *)

(** What the options leave in the struct: the last WithInterval, the last
    WithThrottle. *)
Definition configured_interval (cfgs : list ConfigFunc) : Z :=
  fold_left (fun d c => match c with
                        | WithInterval d' => d'
                        | WithThrottle _ => d
                        end) cfgs second.

Definition configured_source (cfgs : list ConfigFunc) : chan_source :=
  fold_left (fun w c => match c with
                        | WithThrottle m => UseTicker m
                        | WithInterval _ => w
                        end) cfgs UseHammer.

(** The body of the loop goroutine has been entered. *)
Definition started (l : loop_pc) : bool :=
  match l with
  | LCreated | LSpawned => false
  | _ => true
  end.

(** s.withChan has returned: its deferred statement has run. *)
Definition returned (l : loop_pc) : bool :=
  match l with
  | LClose | LDone => true
  | _ => false
  end.

(** Which goroutines and clock resources exist, by the variant of withChan
    and the place of the loop. *)
Definition Wf (s : scheduler) : Prop :=
  match withChan s with
  | UseHammer =>
      tickerArgs s = [] /\ tickerStopped s = false /\
      Chan.closed (hquit s) = returned (loop s) /\
      (if started (loop s)
       then (exists pc, source s = Hammer pc) /\ thr s <> TNone
       else source s = NoSource /\ thr s = TNone)
  | UseTicker m =>
      tickerStopped s = returned (loop s) /\
      (if started (loop s)
       then (exists pc, source s = Convert pc) /\ thr s <> TNone /\
            tickerArgs s = [m]
       else source s = NoSource /\ thr s = TNone /\ tickerArgs s = [])
  end.


(** Entries of the select in a schedule: the first one, and the ones after
    a call of target and after the post of the timer case. *)
Definition select_entries (tr : list event) : nat :=
  count LoopInit tr + count LoopTarget tr + count LoopSignal tr.

(** The ticker variant between Start and Stop. *)
Definition talive (s : scheduler) : bool :=
  throttled s && negb (Chan.closed (quit s))
  && negb (Chan.closed (signal s)) && (Chan.cap (signal s) =? 1)
  && (Chan.len (signal s) <=? 1)
  && match loop s, source s, thr s with
     | LSpawned, NoSource, TNone => true
     | (LSelect | LTarget), Convert _, (TRange | TRecv | TSend) => true
     | _, _, _ => false
     end.

(** TestAutomaticPeriod: in each round d nanoseconds pass, the loop takes
    the timer case and posts, and the goroutines run until nothing more
    can move. *)
Fixpoint run_periodic (rounds : list (Z * list event)) (s : scheduler)
  : result scheduler :=
  match rounds with
  | [] => Ok s
  | (d, r) :: rs =>
      s1 <- run (Advance d :: LoopRecvAfter :: LoopSignal :: r) s ;;
      if forallb internal r && quiescent s1 then run_periodic rs s1
      else NotEnabled
  end.

(** TestThrottledExplicitFire in general: in each round one or more calls
    of Signal, a tick, the goroutines run until nothing more can move,
    then any number of further calls of Signal. *)
Fixpoint run_bursts (rounds : list (nat * list event * nat)) (s : scheduler)
  : result scheduler :=
  match rounds with
  | [] => Ok s
  | (a, r, b) :: rs =>
      s1 <- run (repeat CallSignal (S a) ++ [Tick]) s ;;
      s2 <- run r s1 ;;
      if forallb internal r && quiescent s2
      then s3 <- run (repeat CallSignal b) s2 ;; run_bursts rs s3
      else NotEnabled
  end.

(** One way for the goroutines to process a tick when a signal is
    pending. *)
Definition process_tick : list event :=
  [SourceSend; ThrottleRecvSignal; LoopRecvT; LoopTarget].

(** A step of a goroutine, or the ticker's channel delivering a tick. *)
Definition ticking (e : event) : bool := internal e || event_eqb Tick e.

(** No goroutine can move and a tick of the ticker finds convert not
    receiving. *)
Definition saturated (s : scheduler) : bool :=
  quiescent s && negb (enabled Tick s).

(** The rounds of TestThrottledSchedule: the After channel delivers and
    the loop posts; then the goroutines run and the ticker ticks, in any
    order, until nothing more can move. *)
Fixpoint run_ticking (rounds : list (Z * list event)) (s : scheduler)
  : result scheduler :=
  match rounds with
  | [] => Ok s
  | (d, r) :: rs =>
      s1 <- run (Advance d :: LoopRecvAfter :: LoopSignal :: r) s ;;
      if forallb ticking r && saturated s1 then run_ticking rs s1
      else NotEnabled
  end.

(** One way for the goroutines and the ticker to process a post when
    throttle holds a tick and convert the next one. *)
Definition process_post : list event :=
  [ThrottleRecvSignal; LoopRecvT; LoopTarget; SourceSend; Tick].

(** * Properties *)

Example run_once :
  invocations_of
    (run [CallStart; LoopInit; CallSignal; SourceSend;
          ThrottleRecvSignal; LoopRecvT; LoopTarget] (NewScheduler []))
  = Some 1.
Proof. vm_compute. reflexivity. Qed.

Example run_test_burst :
  invocations_of (run throttled_explicit_fire
                    (NewScheduler [WithInterval second; WithThrottle millisecond]))
  = Some 25
  /\ count CallSignal throttled_explicit_fire = 100
  /\ count Tick throttled_explicit_fire = 25.
Proof. vm_compute. auto. Qed.

(** ** Schedules *)

Lemma run_app (a b : list event) (s : scheduler) :
  run (a ++ b) s = (s' <- run a s ;; run b s').
Proof.
  revert s; induction a as [|e a IH]; intros s; simpl; [reflexivity|].
  destruct (exec e s); simpl; auto.
Qed.

Lemma run_preserves (P : scheduler -> Prop) :
  (forall e s s', P s -> exec e s = Ok s' -> P s') ->
  forall tr s s', P s -> run tr s = Ok s' -> P s'.
Proof.
  intros step tr; induction tr as [|e tr IH]; intros s s' Hs Hr; simpl in Hr.
  - now inversion Hr; subst.
  - destruct (exec e s) as [s1| |] eqn:He; simpl in Hr; try discriminate.
    eauto.
Qed.

(** Case analysis of one step: every test made by [exec] is split, the
    impossible branches are dropped, the new state is substituted. *)
Ltac split_exec H :=
  unfold exec, Start, Stop, Signal, withChan_defer, loop_init,
    Chan.try_send, Chan.recv, Chan.close, Clock.ready, bind in H;
  repeat match type of H with
    | context [match ?x with _ => _ end] =>
        lazymatch x with
        | context [match _ with _ => _ end] => fail
        | _ => destruct x eqn:?
        end
    end;
  try discriminate H;
  try (injection H as <-).

Ltac norm_tests :=
  repeat match goal with
    | H : (_ <? _) = true |- _ => apply Nat.ltb_lt in H
    | H : (_ <? _) = false |- _ => apply Nat.ltb_ge in H
    | H : (_ <=? _)%Z = true |- _ => apply Z.leb_le in H
    | H : (_ <=? _)%Z = false |- _ => apply Z.leb_gt in H
    end.

Ltac by_vm := vm_compute; reflexivity.

(** Conjunctions of closed facts, each settled by evaluation. *)
Ltac vm_conj :=
  repeat match goal with |- _ /\ _ => split end; by_vm.

Ltac step_analysis e H :=
  destruct e; split_exec H; simpl in *; unfold Clock.After in *; norm_tests.

(** ** The constructor *)

Lemma fold_config_fields (cfgs : list ConfigFunc) (s : scheduler) :
  let s' := fold_left apply_config cfgs s in
  quit s' = quit s /\ signal s' = signal s /\ loop s' = loop s /\
  source s' = source s /\ thr s' = thr s /\ hquit s' = hquit s /\
  now s' = now s /\ afterArgs s' = afterArgs s /\
  invocations s' = invocations s.
Proof.
  revert s; induction cfgs as [|c cfgs IH]; intros s; simpl.
  - repeat split.
  - specialize (IH (apply_config s c)); simpl in IH.
    destruct c; simpl in IH; exact IH.
Qed.

Lemma fold_config_throttled (cfgs : list ConfigFunc) (s : scheduler) :
  throttled (fold_left apply_config cfgs s)
  = existsb is_throttle cfgs || throttled s.
Proof.
  revert s; induction cfgs as [|c cfgs IH]; intros s; simpl; [reflexivity|].
  rewrite IH. destruct c; unfold throttled; simpl.
  - reflexivity.
  - now rewrite orb_true_r.
Qed.

Lemma NewScheduler_throttled (cfgs : list ConfigFunc) :
  throttled (NewScheduler cfgs) = existsb is_throttle cfgs.
Proof.
  unfold NewScheduler. rewrite fold_config_throttled.
  unfold throttled; simpl. apply orb_false_r.
Qed.

Lemma Inv_NewScheduler (cfgs : list ConfigFunc) : Inv (NewScheduler cfgs).
Proof.
  unfold NewScheduler.
  destruct (fold_config_fields cfgs
    (mkScheduler second UseHammer (Chan.make 0) (Chan.make 1)
       LCreated NoSource TNone (Chan.make 0) 0 0 [] [] false 0))
    as (Hq & Hs & Hl & Hsrc & Ht & Hh & _).
  unfold Inv. rewrite Hq, Hs, Hl, Hsrc, Ht, Hh. simpl.
  repeat split; auto; try discriminate.
Qed.

Lemma Inv_step (e : event) (s s' : scheduler) :
  Inv s -> exec e s = Ok s' -> Inv s'.
Proof.
  unfold Inv. intros (Hcap & Hlen & Hcl & Hq & Hh & Hsrc & Hthr) H.
  step_analysis e H; repeat split; try (intuition (congruence || lia)).
Qed.

Lemma Inv_reach (cfgs : list ConfigFunc) (tr : list event) (s : scheduler) :
  run tr (NewScheduler cfgs) = Ok s -> Inv s.
Proof.
  apply (run_preserves Inv); [|apply Inv_NewScheduler].
  intros e s0 s1 H0 H1; exact (Inv_step e s0 s1 H0 H1).
Qed.

(** ** Counting events *)

Lemma count_cons (e x : event) (tr : list event) :
  count e (x :: tr) = b2n (event_eqb e x) + count e tr.
Proof. unfold count; simpl. now destruct (event_eqb e x). Qed.

Lemma count_app (e : event) (a b : list event) :
  count e (a ++ b) = count e a + count e b.
Proof. unfold count. now rewrite filter_app, length_app. Qed.

Lemma count_zero_not_in (e : event) (tr : list event) :
  (forall x, In x tr -> event_eqb e x = false) -> count e tr = 0.
Proof.
  induction tr as [|x tr IH]; intros H; [reflexivity|].
  rewrite count_cons, (H x (or_introl eq_refl)), IH; [reflexivity|].
  intros y Hy; apply H; now right.
Qed.

(** ** After the loop has taken the quit case *)

Lemma exited_step (e : event) (s s' : scheduler) :
  exec e s = Ok s' -> exited (loop s) = true ->
  exited (loop s') = true /\ invocations s' = invocations s.
Proof.
  intros H Hx. step_analysis e H; try rewrite Heql in Hx; simpl in Hx;
    (discriminate || (split; [first [assumption | reflexivity]|reflexivity])).
Qed.

Lemma exited_run (tr : list event) (s s' : scheduler) :
  run tr s = Ok s' -> exited (loop s) = true ->
  exited (loop s') = true /\ invocations s' = invocations s.
Proof.
  revert s; induction tr as [|e tr IH]; intros s Hr Hx; simpl in Hr.
  - inversion Hr; subst; auto.
  - destruct (exec e s) as [s1| |] eqn:He; simpl in Hr; try discriminate.
    destruct (exited_step e s s1 He Hx) as [Hx1 Hi1].
    destruct (IH s1 Hr Hx1) as [Hx2 Hi2]. split; congruence.
Qed.

(** ** The termination channel *)

Lemma quit_step (e : event) (s s' : scheduler) :
  exec e s = Ok s' ->
  Chan.closed (quit s') = Chan.closed (quit s) || event_eqb CallStop e.
Proof.
  intros H. step_analysis e H;
    destruct (Chan.closed (quit s)); reflexivity || discriminate.
Qed.

Lemma quit_run (tr : list event) (s s' : scheduler) :
  run tr s = Ok s' ->
  Chan.closed (quit s') = Chan.closed (quit s) || existsb (event_eqb CallStop) tr.
Proof.
  revert s; induction tr as [|e tr IH]; intros s Hr; simpl in Hr.
  - inversion Hr; subst; simpl. now rewrite orb_false_r.
  - destruct (exec e s) as [s1| |] eqn:He; simpl in Hr; try discriminate.
    rewrite (IH s1 Hr), (quit_step e s s1 He). simpl. now rewrite orb_assoc.
Qed.

Lemma existsb_CallStop (tr : list event) :
  existsb (event_eqb CallStop) tr = true <-> In CallStop tr.
Proof.
  rewrite existsb_exists. split.
  - intros (x & Hin & Hx). destruct x; simpl in Hx; try discriminate. exact Hin.
  - intros Hin. exists CallStop. split; [exact Hin|reflexivity].
Qed.

(** ** The ticker variant: one permit per delivered tick *)

Lemma gated_NewScheduler (cfgs : list ConfigFunc) :
  existsb is_throttle cfgs = true -> gated (NewScheduler cfgs).
Proof.
  intros H. unfold gated. rewrite NewScheduler_throttled.
  unfold NewScheduler.
  destruct (fold_config_fields cfgs
    (mkScheduler second UseHammer (Chan.make 0) (Chan.make 1)
       LCreated NoSource TNone (Chan.make 0) 0 0 [] [] false 0))
    as (_ & _ & _ & Hsrc & Ht & _).
  rewrite Hsrc, Ht; simpl. repeat split; [exact H| |]; discriminate.
Qed.

Lemma gated_step (e : event) (s s' : scheduler) :
  gated s -> exec e s = Ok s' -> gated s'.
Proof.
  unfold gated, throttled. intros (Hw & Hsrc & Hthr) H.
  step_analysis e H;
    try (exfalso; congruence);
    try (exfalso; eapply Hsrc; reflexivity);
    repeat split; try assumption; try discriminate;
    try (intros pc; discriminate);
    try (rewrite Heqc; reflexivity).
Qed.

Lemma permits_step (e : event) (s s' : scheduler) :
  gated s -> exec e s = Ok s' ->
  invocations s' + permits s'
  <= invocations s + permits s + b2n (event_eqb Tick e).
Proof.
  unfold gated, throttled, permits, convert_sending, thr_receiving,
    thr_sending, loop_at_target.
  intros (Hw & Hsrc & Hthr) H.
  step_analysis e H;
    try (exfalso; congruence);
    try (exfalso; eapply Hsrc; reflexivity);
    repeat match goal with
      | E : ?x = _ |- context [match ?x with _ => _ end] => rewrite E
      end;
    simpl; try lia;
    try (destruct (source s) as [|[]|[]]; destruct (thr s);
         destruct (loop s); simpl; lia).
Qed.

Lemma permits_run (tr : list event) (s s' : scheduler) :
  gated s -> run tr s = Ok s' ->
  invocations s' + permits s' <= invocations s + permits s + count Tick tr.
Proof.
  revert s; induction tr as [|e tr IH]; intros s Hg Hr; simpl in Hr.
  - inversion Hr; subst. unfold count; simpl; lia.
  - destruct (exec e s) as [s1| |] eqn:He; simpl in Hr; try discriminate.
    pose proof (permits_step e s s1 Hg He) as H1.
    pose proof (IH s1 (gated_step e s s1 Hg He) Hr) as H2.
    rewrite count_cons. lia.
Qed.


(** ** Every call of target is paid for by an accepted signal *)



(** ** The hammer variant while running *)

Lemma alive_spec (s : scheduler) :
  alive s = true <->
  withChan s = UseHammer /\ Chan.closed (quit s) = false /\
  Chan.closed (signal s) = false /\ Chan.cap (signal s) = 1 /\
  Chan.len (signal s) <= 1 /\
  ((loop s = LSpawned /\ source s = NoSource /\ thr s = TNone) \/
   ((loop s = LSelect \/ loop s = LTarget) /\ source s = Hammer HSelect /\
    (thr s = TRange \/ thr s = TRecv \/ thr s = TSend) /\
    Chan.closed (hquit s) = false)).
Proof.
  unfold alive, throttled.
  rewrite !andb_true_iff, !negb_true_iff, Nat.eqb_eq, Nat.leb_le.
  split.
  - intros (((((Hw & Hq) & Hs) & Hc) & Hl) & Hpc).
    repeat split; try assumption.
    + destruct (withChan s); [reflexivity|discriminate].
    + destruct (loop s), (source s) as [|[]|[]], (thr s); try discriminate;
        rewrite ?negb_true_iff in Hpc; intuition.
  - intros (Hw & Hq & Hs & Hc & Hl & Hpc).
    rewrite Hw. repeat split; try assumption.
    destruct Hpc as [(-> & -> & ->)|([-> | ->] & -> & [-> | [-> | ->]] & ->)];
      reflexivity.
Qed.

Lemma alive_internal_step (e : event) (s s' : scheduler) :
  alive s = true -> internal e = true -> exec e s = Ok s' ->
  alive s' = true /\
  invocations s' + pending s' = invocations s + pending s.
Proof.
  rewrite !alive_spec. unfold pending, thr_sending, loop_at_target.
  intros (Hw & Hq & Hs & Hc & Hl & Hpc) Hint H.
  step_analysis e H; try discriminate Hint;
    try (exfalso; intuition congruence);
    (split; [repeat split; try assumption; try reflexivity;
             try (intuition congruence)
            | repeat match goal with
                | E : ?x = _ |- context [match ?x with _ => _ end] => rewrite E
                end; simpl; try lia]).
  all: try (destruct (thr s); simpl; try lia; exfalso; intuition congruence).
  all: try (destruct (loop s); simpl; try lia; exfalso; intuition congruence).
Qed.

Lemma alive_internal_run (tr : list event) (s s' : scheduler) :
  alive s = true -> forallb internal tr = true -> run tr s = Ok s' ->
  alive s' = true /\
  invocations s' + pending s' = invocations s + pending s.
Proof.
  revert s; induction tr as [|e tr IH]; intros s Ha Hint Hr; simpl in *.
  - inversion Hr; subst; auto.
  - apply andb_true_iff in Hint as [He Htr].
    destruct (exec e s) as [s1| |] eqn:Hx; simpl in Hr; try discriminate.
    destruct (alive_internal_step e s s1 Ha He Hx) as [Ha1 H1].
    destruct (IH s1 Ha1 Htr Hr) as [Ha2 H2]. split; [assumption|lia].
Qed.

Lemma set_signal_same (s : scheduler) : set_signal (signal s) s = s.
Proof. now destruct s. Qed.

Lemma alive_signal (s : scheduler) :
  alive s = true ->
  exists s', exec CallSignal s = Ok s' /\ alive s' = true /\
    invocations s' = invocations s /\
    pending s' = pending s + (1 - Chan.len (signal s)).
Proof.
  intros Ha. pose proof Ha as Ha'. rewrite alive_spec in Ha'.
  destruct Ha' as (Hw & Hq & Hs & Hc & Hl & Hpc).
  unfold exec, Signal, Chan.try_send, bind. rewrite Hs, Hc.
  destruct (Chan.len (signal s) <? 1) eqn:Hlt; norm_tests.
  - eexists; split; [reflexivity|].
    split; [apply alive_spec; simpl; repeat split; auto|].
    split; [reflexivity|].
    assert (E : Chan.len (signal s) = 0) by lia.
    unfold pending, thr_sending, loop_at_target; simpl. rewrite E. simpl. lia.
  - exists s. rewrite set_signal_same. repeat split; auto. lia.
Qed.

Lemma alive_quiescent (s : scheduler) :
  alive s = true -> quiescent s = true ->
  pending s = 0 /\ loop s = LSelect /\ thr s = TRecv.
Proof.
  rewrite alive_spec. unfold quiescent, internal_events, enabled, pending,
    thr_sending, loop_at_target.
  intros (Hw & Hq & Hs & Hc & Hl & Hpc) Hn.
  destruct s as [iv w q [l c b] lp src t hq nw dl aa ta ts n]; simpl in *.
  destruct Hpc as [(El & Es & Et)|([El | El] & Es & [Et | [Et | Et]] & Eh)];
    subst; simpl in Hn; rewrite ?Hq, ?Eh in Hn; simpl in Hn;
    try discriminate Hn.
  destruct l; simpl in *; [auto|discriminate Hn].
Qed.

(** A signal posted to a quiescent running scheduler can always be
    processed: the four events of [process_signal] are enabled in turn. *)
Lemma process_signal_runs (s s1 : scheduler) :
  alive s = true -> quiescent s = true -> exec CallSignal s = Ok s1 ->
  exists s2, run process_signal s1 = Ok s2 /\ quiescent s2 = true.
Proof.
  intros Ha Hq H.
  destruct (alive_quiescent s Ha Hq) as (Hp & El & Et).
  rewrite alive_spec in Ha. destruct Ha as (Hw & Hqc & Hs & Hc & Hl & Hpc).
  destruct Hpc as [(E & _)|(_ & Es & _ & Eh)]; [congruence|].
  unfold pending in Hp.
  assert (Hlen : Chan.len (signal s) = 0) by lia.
  clear Hq Hp Hl.
  destruct s as [iv w [ql qc qb] [l c b] lp src t [hl hc hb] nw dl aa ta ts n].
  cbn in Hw, Hqc, Hs, Hc, El, Et, Es, Eh, Hlen. subst.
  vm_compute in H. injection H as <-.
  eexists; split; vm_compute; reflexivity.
Qed.

Lemma NewScheduler_quit_open (cfgs : list ConfigFunc) :
  Chan.closed (quit (NewScheduler cfgs)) = false.
Proof.
  unfold NewScheduler.
  destruct (fold_config_fields cfgs
    (mkScheduler second UseHammer (Chan.make 0) (Chan.make 1)
       LCreated NoSource TNone (Chan.make 0) 0 0 [] [] false 0)) as (Hq & _).
  now rewrite Hq.
Qed.

Lemma internal_events_spec (e : event) :
  internal e = true <-> In e internal_events.
Proof.
  unfold internal_events. destruct e; simpl; split; intros H;
    try discriminate; try reflexivity; try tauto;
    repeat (destruct H as [H|H]; try discriminate H); try contradiction.
Qed.

Lemma work_step (e : event) (s s' : scheduler) :
  alive s = true -> internal e = true -> exec e s = Ok s' ->
  S (work s') = work s.
Proof.
  rewrite alive_spec. unfold work.
  intros (Hw & Hq & Hs & Hc & Hl & Hpc) Hint H.
  step_analysis e H; try discriminate Hint;
    try (exfalso; intuition congruence);
    repeat match goal with
      | E : ?x = _ |- context [match ?x with _ => _ end] => rewrite E
      end; simpl; try lia.
  all: try (destruct (thr s); simpl; try lia; exfalso; intuition congruence).
  all: try (destruct (loop s); simpl; try lia; exfalso; intuition congruence).
Qed.

Lemma work_run (tr : list event) (s s' : scheduler) :
  alive s = true -> forallb internal tr = true -> run tr s = Ok s' ->
  List.length tr + work s' = work s.
Proof.
  revert s; induction tr as [|e tr IH]; intros s Ha Hint Hr; simpl in *.
  - inversion Hr; subst; reflexivity.
  - apply andb_true_iff in Hint as [He Htr].
    destruct (exec e s) as [s1| |] eqn:Hx; simpl in Hr; try discriminate.
    pose proof (work_step e s s1 Ha He Hx) as H1.
    destruct (alive_internal_step e s s1 Ha He Hx) as [Ha1 _].
    pose proof (IH s1 Ha1 Htr Hr) as H2. lia.
Qed.

(** * The claims *)

(** ** C1: Signal after the loop has exited *)

(** C1, as stated, fails: once the loop goroutine has run its deferred
    close(s.signal), the send in Signal is a send on a closed channel and
    panics. *)
Lemma C1_signal_after_exit_panics :
  run [CallStart; LoopInit; CallStop; LoopRecvQuit; LoopDeferWithChan;
       LoopDeferClose; CallSignal] (NewScheduler [])
  = Panic "send on closed channel".
Proof. by_vm. Qed.

(** C1, amended: in every state a schedule reaches, Signal never blocks;
    once the loop goroutine has finished (s.signal is closed) it panics
    with a send on a closed channel; before that, also after Stop, it
    returns normally, calls no target and leaves the loop where it is. *)
Theorem C1_signal_after_loop_exit
  (cfgs : list ConfigFunc) (tr : list event) (s : scheduler) :
  run tr (NewScheduler cfgs) = Ok s ->
  exec CallSignal s <> NotEnabled /\
  (loop s = LDone -> exec CallSignal s = Panic "send on closed channel") /\
  (loop s <> LDone ->
   exists s', exec CallSignal s = Ok s' /\ loop s' = loop s /\
              invocations s' = invocations s).
Proof.
  intros Hr. destruct (Inv_reach cfgs tr s Hr) as (_ & _ & Hcl & _).
  unfold exec, Signal, Chan.try_send, bind.
  destruct (Chan.closed (signal s)) eqn:Hc.
  - split; [discriminate|split].
    + reflexivity.
    + intros Hd; destruct (loop s); congruence.
  - split; [|split].
    + destruct (Chan.len (signal s) <? Chan.cap (signal s)); discriminate.
    + intros Hd. rewrite Hd in Hcl. discriminate.
    + intros _.
      destruct (Chan.len (signal s) <? Chan.cap (signal s));
        eexists; repeat split.
Qed.

Lemma C1_signal_after_loop_exit_witness :
  exists s,
    run [CallStart; LoopInit; CallStop; LoopRecvQuit; LoopDeferWithChan;
         LoopDeferClose] (NewScheduler []) = Ok s /\
    loop s = LDone /\
    exec CallSignal s = Panic "send on closed channel".
Proof.
  eexists. split; [by_vm|].
  match goal with
  | |- loop ?s = _ /\ _ =>
      assert (Hr : run [CallStart; LoopInit; CallStop; LoopRecvQuit;
                        LoopDeferWithChan; LoopDeferClose] (NewScheduler [])
                   = Ok s) by by_vm;
      destruct (C1_signal_after_loop_exit [] _ s Hr) as (_ & Hp & _)
  end.
  split; [reflexivity|apply Hp; reflexivity].
Defined.

(** ** C3: invocations after Stop *)

(** C3, as stated, fails: Stop only closes s.quit; the select of the loop
    may still take the case of t. Here Stop has returned with no call of
    target made; a Signal called afterward, or the After channel that was
    already ready, then leads to one. *)
Lemma C3_invocation_after_stop :
  invocations_of (run [CallStart; LoopInit; CallStop] (NewScheduler []))
  = Some 0 /\
  invocations_of
    (run ([CallStart; LoopInit; CallStop] ++
          [CallSignal; SourceSend; ThrottleRecvSignal; LoopRecvT; LoopTarget])
       (NewScheduler []))
  = Some 1 /\
  invocations_of
    (run ([CallStart; LoopInit; Advance second; CallStop] ++
          [LoopRecvAfter; LoopSignal; SourceSend; ThrottleRecvSignal;
           LoopRecvT; LoopTarget])
       (NewScheduler []))
  = Some 1.
Proof. vm_conj. Qed.

(** C3, amended: after Stop has returned, the quit case of the select is
    enabled whenever the loop waits in it; and once the loop has taken the
    quit case, no schedule, whatever calls of Signal or clock events it
    contains, leads to another call of target. *)
Theorem C3_no_invocation_after_quit_case
  (cfgs : list ConfigFunc) (tr : list event) (s : scheduler) :
  run tr (NewScheduler cfgs) = Ok s -> In CallStop tr ->
  (loop s = LSelect -> exec LoopRecvQuit s = Ok (set_loop LReturn s)) /\
  (exited (loop s) = true ->
   forall tr' s', run tr' s = Ok s' ->
     invocations s' = invocations s /\ exited (loop s') = true).
Proof.
  intros Hr Hin. split.
  - intros Hl. unfold exec. rewrite Hl.
    rewrite (quit_run tr _ s Hr).
    apply existsb_CallStop in Hin. rewrite Hin, orb_true_r. reflexivity.
  - intros Hx tr' s' Hr'.
    destruct (exited_run tr' s s' Hr' Hx); auto.
Qed.

Lemma C3_no_invocation_after_quit_case_witness :
  exists s s',
    run [CallStart; LoopInit; CallSignal; CallStop; LoopRecvQuit]
      (NewScheduler []) = Ok s /\
    run [CallSignal; SourceSend; ThrottleRecvSignal; Advance second;
         LoopDeferWithChan] s = Ok s' /\
    invocations s' = invocations s.
Proof.
  eexists. eexists. split; [by_vm|]. split; [by_vm|].
  match goal with
  | |- invocations ?s' = invocations ?s =>
      assert (Hr : run [CallStart; LoopInit; CallSignal; CallStop;
                        LoopRecvQuit] (NewScheduler []) = Ok s) by by_vm;
      assert (Hr' : run [CallSignal; SourceSend; ThrottleRecvSignal;
                         Advance second; LoopDeferWithChan] s = Ok s')
        by by_vm;
      destruct (C3_no_invocation_after_quit_case [] _ s Hr) as (_ & Hp);
        [simpl; auto|];
      destruct (Hp eq_refl _ s' Hr') as (Hi & _)
  end.
  exact Hi.
Defined.

(** ** C7: Stop twice *)

(** C7: in a state reached by a schedule that contains a call of Stop,
    another call of Stop panics (close of a closed channel); in a state
    reached without one, Stop returns normally. *)
Theorem C7_second_stop_panics
  (cfgs : list ConfigFunc) (tr : list event) (s : scheduler) :
  run tr (NewScheduler cfgs) = Ok s ->
  (In CallStop tr -> exec CallStop s = Panic "close of closed channel") /\
  (~ In CallStop tr ->
   exists s', exec CallStop s = Ok s' /\ invocations s' = invocations s /\
              Chan.closed (quit s') = true).
Proof.
  intros Hr. pose proof (quit_run tr _ s Hr) as Hq.
  rewrite NewScheduler_quit_open in Hq. simpl in Hq.
  unfold exec, Stop, Chan.close, bind. split; intros Hin.
  - apply existsb_CallStop in Hin. rewrite Hq, Hin. reflexivity.
  - destruct (existsb (event_eqb CallStop) tr) eqn:E.
    + apply existsb_CallStop in E. contradiction.
    + rewrite Hq. eexists; repeat split.
Qed.

Lemma C7_second_stop_panics_witness :
  exists s,
    run [CallStart; LoopInit; CallSignal; CallStop] (NewScheduler []) = Ok s /\
    exec CallStop s = Panic "close of closed channel".
Proof.
  eexists. split; [by_vm|].
  match goal with
  | |- exec CallStop ?s = _ =>
      assert (Hr : run [CallStart; LoopInit; CallSignal; CallStop]
                     (NewScheduler []) = Ok s) by by_vm;
      destruct (C7_second_stop_panics [] _ s Hr) as (Hp & _)
  end.
  apply Hp. simpl; auto.
Defined.

(** ** C4: the one-slot signal buffer *)





(** ** C5: bursts of signals in throttled mode *)



(** ** C2: what a tick does in throttled mode *)

(** C2, as stated, fails: the tick below is delivered and taken by
    throttle while no signal is pending (none was posted yet); a signal
    posted afterward is released to the loop and target is called, with no
    further tick. *)
Lemma C2_signal_passes_after_idle_tick :
  exists s1 s2,
    run [CallStart; LoopInit; Tick; SourceSend]
      (NewScheduler [WithThrottle millisecond]) = Ok s1 /\
    Chan.len (signal s1) = 0 /\ invocations s1 = 0 /\
    run [CallSignal; ThrottleRecvSignal; LoopRecvT; LoopTarget] s1 = Ok s2 /\
    count Tick [CallSignal; ThrottleRecvSignal; LoopRecvT; LoopTarget] = 0 /\
    invocations s2 = 1.
Proof. eexists. eexists. vm_conj. Qed.

(** C2, amended: in throttled mode throttle takes a tick whether or not a
    signal is pending, and then waits for a signal: a pending one is
    released at once; with none pending nothing is released yet, and the
    next signal posted is released and leads to a call of target without
    any further tick. Until throttle has handed that signal to the loop
    it takes no other tick, and over any stretch of a schedule the calls
    of target number at most the ticks delivered in it plus the ticks
    delivered before and not yet used. *)
Theorem C2_tick_is_a_permit
  (cfgs : list ConfigFunc) (tr0 : list event) (s : scheduler) :
  existsb is_throttle cfgs = true ->
  run tr0 (NewScheduler cfgs) = Ok s ->
  (thr s = TRange -> source s = Convert CSend ->
   exists s', exec SourceSend s = Ok s' /\ thr s' = TRecv /\
              signal s' = signal s /\ invocations s' = invocations s) /\
  (thr s = TRecv -> Chan.len (signal s) = 1 ->
   exists s', exec ThrottleRecvSignal s = Ok s' /\ thr s' = TSend /\
              Chan.len (signal s') = 0 /\ invocations s' = invocations s) /\
  (thr s = TRecv -> Chan.len (signal s) = 0 -> loop s = LSelect ->
   exec ThrottleRecvSignal s = NotEnabled /\
   exists s', run [CallSignal; ThrottleRecvSignal; LoopRecvT; LoopTarget] s
              = Ok s' /\
              invocations s' = S (invocations s)) /\
  (thr s <> TRange -> exec SourceSend s = NotEnabled) /\
  (forall tr s', run tr s = Ok s' ->
     invocations s' + permits s'
     <= invocations s + permits s + count Tick tr).
Proof.
  intros Hc Hr.
  assert (Hg : gated s).
  { apply (run_preserves gated gated_step tr0 (NewScheduler cfgs) s);
      [now apply gated_NewScheduler|exact Hr]. }
  destruct (Inv_reach cfgs tr0 s Hr) as (Hcap & Hlen & Hcl & _).
  split; [|split; [|split; [|split]]].
  - intros Ht Hs. unfold exec. rewrite Ht, Hs.
    eexists; repeat split.
  - intros Ht Hl. unfold exec, Chan.recv, bind. rewrite Ht, Hl.
    eexists; repeat split.
  - intros Ht Hl Hlp. rewrite Hlp in Hcl.
    destruct s as [iv w q [l c b] lp src t hq nw dl aa ta ts n].
    cbn in Hcap, Hcl, Ht, Hl, Hlp. subst.
    split; [reflexivity|]. eexists; split; reflexivity.
  - intros Ht. unfold exec. destruct (thr s); try reflexivity. congruence.
  - intros tr s' Hr'. now apply permits_run.
Qed.

Lemma C2_tick_is_a_permit_witness :
  exists s s',
    run [CallStart; LoopInit; Tick; SourceSend]
      (NewScheduler [WithThrottle millisecond]) = Ok s /\
    exec ThrottleRecvSignal s = NotEnabled /\
    run [CallSignal; ThrottleRecvSignal; LoopRecvT; LoopTarget] s = Ok s' /\
    invocations s' = S (invocations s).
Proof.
  eexists.
  match goal with
  | |- exists s', run ?tr ?i = Ok ?s /\ _ =>
      assert (Hr : run tr i = Ok s) by by_vm;
      destruct (C2_tick_is_a_permit [WithThrottle millisecond] tr s
                  eq_refl Hr) as (_ & _ & Hp & _);
      destruct (Hp eq_refl eq_refl eq_refl) as (Hn & s' & Hrun & Hi)
  end.
  exists s'. repeat split; assumption.
Defined.

(** ** C6: the timer case posts a signal *)



(** ** C9: the countdown is re-armed at every entry of the select *)

(** C9: a step that brings the loop into the select from elsewhere is the
    first entry, the return of target or the post of the timer case; it
    calls clock.After(interval) afresh, so the new countdown ends one
    interval after the time of that step. While the loop stays in the
    select the countdown is left alone, and the timer case is taken only
    once it has run out. So the countdown is not aligned to Start: with an
    interval of one second, a signal processed 0.6 s after Start moves the
    next timer event from 1 s to 1.6 s after Start. *)
Theorem C9_countdown_rearmed :
  (forall e s s', exec e s = Ok s' ->
     interval s' = interval s /\
     (loop s' = LSelect -> loop s <> LSelect ->
      (e = LoopInit \/ e = LoopTarget \/ e = LoopSignal) /\
      deadline s' = (now s' + interval s')%Z /\
      afterArgs s' = (afterArgs s ++ [interval s])%list) /\
     (loop s = LSelect -> loop s' = LSelect ->
      deadline s' = deadline s /\ afterArgs s' = afterArgs s) /\
     (e = LoopRecvAfter -> (deadline s <= now s)%Z)) /\
  (exists s,
     run [CallStart; LoopInit; Advance 600000000; Advance 400000000]
       (NewScheduler []) = Ok s /\
     now s = second /\ enabled LoopRecvAfter s = true) /\
  (exists s s',
     run [CallStart; LoopInit; Advance 600000000; CallSignal; SourceSend;
          ThrottleRecvSignal; LoopRecvT; LoopTarget; Advance 400000000]
       (NewScheduler []) = Ok s /\
     now s = second /\ enabled LoopRecvAfter s = false /\
     exec (Advance 600000000) s = Ok s' /\
     enabled LoopRecvAfter s' = true).
Proof.
  split; [|split].
  - intros e s s' H. step_analysis e H;
      (split; [reflexivity|split; [|split]]);
      try (intros; congruence);
      try (intros; repeat split; auto; fail);
      try (intros; split; reflexivity);
      try (intros; assumption).
  - eexists. vm_conj.
  - eexists. eexists. vm_conj.
Qed.

Lemma C9_countdown_rearmed_witness :
  exists s s',
    run [CallStart; LoopInit; Advance 600000000; CallSignal; SourceSend;
         ThrottleRecvSignal; LoopRecvT] (NewScheduler []) = Ok s /\
    exec LoopTarget s = Ok s' /\
    deadline s' = (now s' + interval s')%Z.
Proof.
  eexists. eexists. split; [by_vm|].
  match goal with
  | |- exec LoopTarget ?s = Ok ?s' /\ _ =>
      assert (H1 : exec LoopTarget s = Ok s') by by_vm;
      destruct (proj1 C9_countdown_rearmed LoopTarget s s' H1)
        as (_ & Hp & _);
      destruct Hp as (_ & Hd & _); [reflexivity|discriminate|]
  end.
  split; assumption.
Defined.

(** ** C8: spaced signals in unthrottled mode *)

Lemma spaced_round (s s1 s2 : scheduler) (r : list event) :
  alive s = true -> pending s = 0 ->
  exec CallSignal s = Ok s1 -> forallb internal r = true ->
  run r s1 = Ok s2 -> quiescent s2 = true ->
  alive s2 = true /\ pending s2 = 0 /\ invocations s2 = S (invocations s).
Proof.
  intros Ha Hp H1 Hint Hr Hq.
  destruct (alive_signal s Ha) as (s1' & H1' & Ha1 & Hi1 & Hp1).
  rewrite H1 in H1'. injection H1' as <-.
  destruct (alive_internal_run r s1 s2 Ha1 Hint Hr) as (Ha2 & Hsum).
  destruct (alive_quiescent s2 Ha2 Hq) as (Hp2 & _).
  unfold pending in Hp. repeat split; [assumption|assumption|].
  assert (Chan.len (signal s) = 0) by lia.
  unfold pending in *. lia.
Qed.

(** C8: from a running unthrottled scheduler with nothing pending, any
    number of rounds, each a call of Signal followed by internal events
    until nothing more can move, ends with exactly one call of target per
    round; from a quiescent one such rounds exist for every number of
    signals; and after a call of Signal the goroutines take at most six
    steps on their own, so a round always comes to its end. *)
Theorem C8_spaced_signals (s0 : scheduler) :
  alive s0 = true -> pending s0 = 0 ->
  (forall rounds s', run_spaced rounds s0 = Ok s' ->
     invocations s' = invocations s0 + List.length rounds) /\
  (quiescent s0 = true ->
   forall N, exists s',
     run_spaced (repeat process_signal N) s0 = Ok s' /\
     invocations s' = invocations s0 + N) /\
  (forall s1 tr s',
     exec CallSignal s0 = Ok s1 -> forallb internal tr = true ->
     run tr s1 = Ok s' -> List.length tr <= 6).
Proof.
  intros Ha Hp. split; [|split].
  - intros rounds. revert s0 Ha Hp.
    induction rounds as [|r rs IH]; intros s0 Ha Hp s' Hrun;
      cbn [run_spaced] in Hrun.
    + injection Hrun as <-. simpl. lia.
    + destruct (exec CallSignal s0) as [s1| |] eqn:H1;
        cbn [bind] in Hrun; try discriminate.
      destruct (run r s1) as [s2| |] eqn:H2;
        cbn [bind] in Hrun; try discriminate.
      destruct (forallb internal r) eqn:Hint; cbn [andb] in Hrun;
        try discriminate.
      destruct (quiescent s2) eqn:Hq; try discriminate.
      destruct (spaced_round s0 s1 s2 r Ha Hp H1 Hint H2 Hq)
        as (Ha2 & Hp2 & Hi2).
      rewrite (IH s2 Ha2 Hp2 s' Hrun), Hi2. simpl. lia.
  - intros Hq N. revert s0 Ha Hp Hq.
    induction N as [|N IH]; intros s0 Ha Hp Hq.
    + exists s0. simpl. split; [reflexivity|lia].
    + destruct (alive_signal s0 Ha) as (s1 & H1 & _).
      destruct (process_signal_runs s0 s1 Ha Hq H1) as (s2 & H2 & Hq2).
      destruct (spaced_round s0 s1 s2 process_signal Ha Hp H1 eq_refl H2 Hq2)
        as (Ha2 & Hp2 & Hi2).
      destruct (IH s2 Ha2 Hp2 Hq2) as (s' & Hs' & Hi').
      exists s'. split; [|lia].
      cbn [repeat run_spaced]. rewrite H1. cbn [bind]. rewrite H2.
      cbn [bind]. rewrite Hq2.
      replace (forallb internal process_signal) with true by reflexivity.
      cbn [andb]. exact Hs'.
  - intros s1 tr s' H1 Hint Hr.
    destruct (alive_signal s0 Ha) as (s1' & H1' & Ha1 & _ & Hp1).
    rewrite H1 in H1'. injection H1' as <-.
    pose proof (work_run tr s1 s' Ha1 Hint Hr) as Hw.
    apply alive_spec in Ha1. destruct Ha1 as (_ & _ & _ & _ & Hl & Hpc).
    assert (Hone : pending s1 = 1).
    { rewrite Hp1, Hp. unfold pending in Hp.
      assert (E : Chan.len (signal s0) = 0) by lia.
      rewrite E. reflexivity. }
    clear Hp Hp1 H1.
    unfold pending, thr_sending, loop_at_target in Hone.
    unfold work in Hw.
    destruct Hpc as [(El & _ & Et)|([El | El] & _ & [Et | [Et | Et]] & _)];
      rewrite El, Et in *; cbn [b2n] in Hone; lia.
Qed.

Lemma C8_spaced_signals_witness :
  exists s0 s',
    run [CallStart; LoopInit; SourceSend] (NewScheduler []) = Ok s0 /\
    run_spaced [process_signal;
                [ThrottleRecvSignal; LoopRecvT; SourceSend; LoopTarget];
                process_signal] s0 = Ok s' /\
    invocations s' = invocations s0 + 3.
Proof.
  eexists. eexists. split; [by_vm|]. split; [by_vm|].
  match goal with
  | |- invocations ?s' = invocations ?s0 + _ =>
      assert (Hr : run_spaced
                     [process_signal;
                      [ThrottleRecvSignal; LoopRecvT; SourceSend; LoopTarget];
                      process_signal] s0 = Ok s') by by_vm;
      assert (Ha : alive s0 = true) by by_vm;
      assert (Hp : pending s0 = 0) by by_vm;
      exact (proj1 (C8_spaced_signals s0 Ha Hp) _ s' Hr)
  end.
Defined.

(** ** C10: Signal before Start *)

Lemma signal_full_noop (s : scheduler) (k : nat) :
  signal s = Chan.mk 1 1 false ->
  run (repeat CallSignal k) s = Ok s.
Proof.
  intros Hs. induction k as [|k IH]; [reflexivity|].
  cbn [repeat run exec]. unfold Signal, Chan.try_send, bind. rewrite Hs.
  cbn. rewrite <- Hs, set_signal_same. exact IH.
Qed.

Lemma NewScheduler_created (cfgs : list ConfigFunc) :
  let s := NewScheduler cfgs in
  quit s = Chan.make 0 /\ signal s = Chan.make 1 /\ loop s = LCreated /\
  source s = NoSource /\ thr s = TNone /\ invocations s = 0.
Proof.
  unfold NewScheduler.
  destruct (fold_config_fields cfgs
    (mkScheduler second UseHammer (Chan.make 0) (Chan.make 1)
       LCreated NoSource TNone (Chan.make 0) 0 0 [] [] false 0))
    as (Hq & Hs & Hl & Hsrc & Ht & _ & _ & _ & Hi).
  cbn zeta. rewrite Hq, Hs, Hl, Hsrc, Ht, Hi. repeat split.
Qed.

(** C10: any number k of calls of Signal before Start returns normally
    and leaves min k 1 signals in the buffer. In unthrottled mode, if
    there was at least one such call, then after Start the goroutines can
    run until nothing more can move, and however they are scheduled, once
    nothing more can move target has been called exactly once. *)
Theorem C10_signal_before_start (cfgs : list ConfigFunc) (k : nat) :
  existsb is_throttle cfgs = false ->
  exists s1,
    run (repeat CallSignal k) (NewScheduler cfgs) = Ok s1 /\
    Chan.len (signal s1) = Nat.min k 1 /\
    invocations s1 = 0 /\
    (1 <= k ->
     (exists s2,
        run (CallStart :: LoopInit :: SourceSend :: process_signal) s1
        = Ok s2 /\
        quiescent s2 = true /\ invocations s2 = 1) /\
     (forall tr s2,
        forallb internal tr = true -> run (CallStart :: tr) s1 = Ok s2 ->
        quiescent s2 = true -> invocations s2 = 1)).
Proof.
  intros Hc. rewrite <- NewScheduler_throttled in Hc.
  destruct (NewScheduler_created cfgs) as (Hq & Hs & Hl & Hsrc & Ht & Hi).
  destruct k as [|k].
  - exists (NewScheduler cfgs). rewrite Hs.
    repeat split; [exact Hi|lia|lia].
  - remember (NewScheduler cfgs) as s eqn:Es. clear Es.
    exists (set_signal (Chan.mk 1 1 false) s).
    split; [|split; [cbn; destruct k; reflexivity|split;
                       [exact Hi|intros _]]].
    + cbn [repeat run exec]. unfold Signal, Chan.try_send, bind.
      rewrite Hs. cbn. now apply signal_full_noop.
    + assert (Ha : alive (set_loop LSpawned (set_signal (Chan.mk 1 1 false) s))
                   = true).
      { apply alive_spec. cbn. rewrite Hq, Hsrc, Ht.
        unfold throttled in Hc.
        destruct (withChan s); [|discriminate].
        repeat split; auto. }
      assert (Hstart : exec CallStart (set_signal (Chan.mk 1 1 false) s)
                       = Ok (set_loop LSpawned
                               (set_signal (Chan.mk 1 1 false) s))).
      { unfold exec, Start. cbn. now rewrite Hl. }
      assert (Hall : forall tr s2,
                forallb internal tr = true ->
                run (CallStart :: tr) (set_signal (Chan.mk 1 1 false) s)
                = Ok s2 ->
                quiescent s2 = true -> invocations s2 = 1).
      { intros tr s2 Hint Hrun Hqs. cbn [run] in Hrun.
        rewrite Hstart in Hrun. cbn [bind] in Hrun.
        destruct (alive_internal_run tr _ s2 Ha Hint Hrun) as (Ha2 & Hsum).
        destruct (alive_quiescent s2 Ha2 Hqs) as (Hp2 & _).
        rewrite Hp2 in Hsum.
        unfold pending, thr_sending, loop_at_target in Hsum.
        cbn in Hsum. rewrite Ht, Hi in Hsum. cbn in Hsum. lia. }
      split; [|exact Hall].
      assert (Hrun : exists s2,
                run (CallStart :: LoopInit :: SourceSend :: process_signal)
                  (set_signal (Chan.mk 1 1 false) s) = Ok s2 /\
                quiescent s2 = true).
      { unfold throttled in Hc.
        destruct s as [iv w [ql qc qb] sg lp src t hq nw dl aa ta ts n].
        cbn in Hq, Hs, Hl, Hsrc, Ht, Hc.
        destruct w; [|discriminate].
        injection Hq as -> -> ->. subst.
        eexists; split; by_vm. }
      destruct Hrun as (s2 & Hrun & Hqs).
      exists s2. repeat split; [exact Hrun|exact Hqs|].
      apply (Hall (LoopInit :: SourceSend :: process_signal) s2 eq_refl
               Hrun Hqs).
Qed.

Lemma C10_signal_before_start_witness :
  exists s1,
    run (repeat CallSignal 3) (NewScheduler [WithInterval millisecond])
    = Ok s1 /\
    Chan.len (signal s1) = 1 /\
    forall tr s2,
      forallb internal tr = true -> run (CallStart :: tr) s1 = Ok s2 ->
      quiescent s2 = true -> invocations s2 = 1.
Proof.
  destruct (C10_signal_before_start [WithInterval millisecond] 3 eq_refl)
    as (s1 & Hr & Hl & _ & Hk).
  exists s1. split; [exact Hr|]. split; [exact Hl|].
  destruct Hk as (_ & Hall); [repeat constructor|exact Hall].
Defined.

(** * Further properties of the code *)

(** ** The options of NewScheduler *)

Lemma fold_config_settings (cfgs : list ConfigFunc) (s : scheduler) :
  interval (fold_left apply_config cfgs s)
  = fold_left (fun d c => match c with
                          | WithInterval d' => d'
                          | WithThrottle _ => d
                          end) cfgs (interval s) /\
  withChan (fold_left apply_config cfgs s)
  = fold_left (fun w c => match c with
                          | WithThrottle m => UseTicker m
                          | WithInterval _ => w
                          end) cfgs (withChan s).
Proof.
  revert s; induction cfgs as [|c cfgs IH]; intros s; [split; reflexivity|].
  cbn [fold_left]. destruct (IH (apply_config s c)) as [Hi Hw].
  rewrite Hi, Hw. destruct c; split; reflexivity.
Qed.

Lemma settings_step (e : event) (s s' : scheduler) :
  exec e s = Ok s' -> interval s' = interval s /\ withChan s' = withChan s.
Proof. intros H. step_analysis e H; split; try reflexivity; congruence. Qed.

Lemma settings_reach (cfgs : list ConfigFunc) (tr : list event)
  (s : scheduler) :
  run tr (NewScheduler cfgs) = Ok s ->
  interval s = configured_interval cfgs /\
  withChan s = configured_source cfgs.
Proof.
  intros Hr.
  apply (run_preserves
           (fun s => interval s = configured_interval cfgs /\
                     withChan s = configured_source cfgs)) in Hr;
    [exact Hr| |].
  - intros e s0 s1 [Hi Hw] He.
    destruct (settings_step e s0 s1 He) as [Hi' Hw']. split; congruence.
  - unfold NewScheduler. apply fold_config_settings.
Qed.

(** The options compose independently and the last of each kind wins: in
    every state a schedule reaches, the interval is the one of the last
    WithInterval (one second if there is none) and the ready source the
    one of the last WithThrottle (the hammer if there is none); no method
    and no goroutine changes them. *)
Theorem options_last_wins
  (cfgs : list ConfigFunc) (tr : list event) (s : scheduler) :
  run tr (NewScheduler cfgs) = Ok s ->
  interval s = configured_interval cfgs /\
  withChan s = configured_source cfgs.
Proof.
  intros Hr.
  assert (Hstep : forall tr' s0 s1,
            run tr' s0 = Ok s1 ->
            interval s1 = interval s0 /\ withChan s1 = withChan s0).
  { induction tr' as [|e tr' IH]; intros s0 s1 H; simpl in H.
    - injection H as <-. split; reflexivity.
    - destruct (exec e s0) as [s2| |] eqn:He; simpl in H; try discriminate.
      destruct (settings_step e s0 s2 He) as [Hi Hw].
      destruct (IH s2 s1 H) as [Hi' Hw']. split; congruence. }
  destruct (Hstep tr _ s Hr) as [Hi Hw]. rewrite Hi, Hw.
  unfold NewScheduler. apply fold_config_settings.
Qed.

Lemma options_last_wins_witness :
  exists s,
    run [CallStart; LoopInit; Tick; CallSignal; SourceSend]
      (NewScheduler [WithInterval 5; WithThrottle 7; WithInterval 3;
                     WithThrottle 2]) = Ok s /\
    interval s = 3%Z /\ withChan s = UseTicker 2.
Proof.
  eexists. split; [by_vm|].
  match goal with
  | |- interval ?s = _ /\ _ =>
      assert (Hr : run [CallStart; LoopInit; Tick; CallSignal; SourceSend]
                     (NewScheduler [WithInterval 5; WithThrottle 7;
                                    WithInterval 3; WithThrottle 2]) = Ok s)
        by by_vm;
      exact (options_last_wins _ _ s Hr)
  end.
Defined.

(** ** Before Start *)

Lemma created_step (e : event) (s s' : scheduler) :
  exec e s = Ok s' -> loop s = LCreated -> event_eqb CallStart e = false ->
  loop s' = LCreated /\ invocations s' = invocations s.
Proof.
  intros H Hl Hne. step_analysis e H; try discriminate; try congruence;
    split; assumption || reflexivity.
Qed.

(** Nothing runs before Start: in a state reached by a schedule without a
    call of Start the loop goroutine does not exist and target has not
    been called, whatever calls of Signal and Stop and whatever clock
    events the schedule has. *)
Theorem no_invocation_before_start
  (cfgs : list ConfigFunc) (tr : list event) (s : scheduler) :
  run tr (NewScheduler cfgs) = Ok s -> ~ In CallStart tr ->
  loop s = LCreated /\ invocations s = 0.
Proof.
  destruct (NewScheduler_created cfgs) as (_ & _ & Hl & _ & _ & Hi).
  revert Hl Hi. generalize (NewScheduler cfgs) as s0.
  induction tr as [|e tr IH]; intros s0 Hl Hi Hr Hnin; simpl in Hr.
  - injection Hr as <-. split; assumption.
  - destruct (exec e s0) as [s1| |] eqn:He; simpl in Hr; try discriminate.
    assert (Hne : event_eqb CallStart e = false).
    { destruct e; try reflexivity. exfalso. apply Hnin. now left. }
    destruct (created_step e s0 s1 He Hl Hne) as [Hl1 Hi1].
    apply (IH s1); try assumption; [congruence|].
    intros Hin. apply Hnin. now right.
Qed.

Lemma no_invocation_before_start_witness :
  exists s,
    run [CallSignal; Advance second; CallSignal; CallStop]
      (NewScheduler [WithThrottle millisecond]) = Ok s /\
    invocations s = 0.
Proof.
  eexists. split; [by_vm|].
  match goal with
  | |- invocations ?s = _ =>
      assert (Hr : run [CallSignal; Advance second; CallSignal; CallStop]
                     (NewScheduler [WithThrottle millisecond]) = Ok s)
        by by_vm;
      refine (proj2 (no_invocation_before_start _ _ s Hr _))
  end.
  intros [H|[H|[H|[H|[]]]]]; discriminate H.
Defined.

(** ** Panics *)



(** ** Goroutines and clock resources *)

Lemma Wf_NewScheduler (cfgs : list ConfigFunc) : Wf (NewScheduler cfgs).
Proof.
  unfold Wf, NewScheduler.
  destruct (fold_config_fields cfgs
    (mkScheduler second UseHammer (Chan.make 0) (Chan.make 1)
       LCreated NoSource TNone (Chan.make 0) 0 0 [] [] false 0))
    as (_ & _ & Hl & Hsrc & Ht & Hh & _).
  assert (Hta : forall cs s0,
             tickerArgs (fold_left apply_config cs s0) = tickerArgs s0 /\
             tickerStopped (fold_left apply_config cs s0) = tickerStopped s0).
  { induction cs as [|c cs IH]; intros s0; [split; reflexivity|].
    cbn [fold_left]. destruct (IH (apply_config s0 c)) as [H1 H2].
    rewrite H1, H2. destruct c; split; reflexivity. }
  destruct (Hta cfgs
    (mkScheduler second UseHammer (Chan.make 0) (Chan.make 1)
       LCreated NoSource TNone (Chan.make 0) 0 0 [] [] false 0)) as [Ha Hs].
  rewrite Hl, Hsrc, Ht, Hh, Ha, Hs. cbn.
  match goal with |- match ?w with _ => _ end => destruct w end;
    repeat split.
Qed.

Lemma Wf_step (e : event) (s s' : scheduler) :
  Inv s -> Wf s -> exec e s = Ok s' -> Wf s'.
Proof.
  unfold Inv, Wf.
  intros (_ & _ & _ & _ & Hh & _) Hwf H.
  destruct (withChan s) eqn:Hw.
  - destruct Hwf as (Hta & Hts & Hhq & Hpc).
    step_analysis e H;
      try match goal with E : withChan s = _ |- _ => rewrite E in * end;
      try discriminate;
      try (destruct (loop s) eqn:El); cbn in *; try discriminate;
      repeat match goal with
        | H : _ /\ _ |- _ => destruct H
        | H : exists _, _ |- _ => destruct H
        end;
      repeat split; try assumption; try congruence; try discriminate;
      try (eexists; reflexivity); try (eexists; eassumption).
  - destruct Hwf as (Hts & Hpc).
    step_analysis e H;
      try match goal with E : withChan s = _ |- _ => rewrite E in * end;
      try discriminate;
      try (destruct (loop s) eqn:El); cbn in *; try discriminate;
      repeat match goal with
        | H : _ /\ _ |- _ => destruct H
        | H : exists _, _ |- _ => destruct H
        end;
      repeat split; try assumption; try congruence; try discriminate;
      try (eexists; reflexivity); try (eexists; eassumption);
      try match goal with
          | E : tickerArgs s = [] |- _ => rewrite E; reflexivity
          end.
Qed.

Lemma Wf_reach (cfgs : list ConfigFunc) (tr : list event) (s : scheduler) :
  run tr (NewScheduler cfgs) = Ok s -> Wf s.
Proof.
  intros Hr.
  apply (run_preserves (fun s => Inv s /\ Wf s)) in Hr; [tauto| |].
  - intros e s0 s1 [Hi Hw] He. split.
    + exact (Inv_step e s0 s1 Hi He).
    + exact (Wf_step e s0 s1 Hi Hw He).
  - split; [apply Inv_NewScheduler|apply Wf_NewScheduler].
Qed.



(** The hammer goroutine lives exactly as long as the function run by the
    default s.withChan: in a reachable state of the unthrottled scheduler
    the hammer has returned only if s.withChan has returned; while
    s.withChan has not returned the hammer cannot take its quit case; and
    once s.withChan has returned the quit case is open to it. *)
Theorem hammer_lifetime
  (cfgs : list ConfigFunc) (tr : list event) (s : scheduler) :
  run tr (NewScheduler cfgs) = Ok s ->
  (source s = Hammer HDone -> returned (loop s) = true) /\
  (source s = Hammer HSelect ->
   exec HammerQuit s
   = if returned (loop s) then Ok (set_source (Hammer HDone) s)
     else NotEnabled).
Proof.
  intros Hr. pose proof (Wf_reach cfgs tr s Hr) as Hwf.
  destruct (Inv_reach cfgs tr s Hr) as (_ & _ & _ & _ & Hh & Hd & _).
  split.
  - intros Hs. destruct (Hh (Hd Hs)) as [-> | ->]; reflexivity.
  - intros Hs. unfold exec. rewrite Hs.
    unfold Wf in Hwf. destruct (withChan s).
    + destruct Hwf as (_ & _ & Hq & _). rewrite Hq. reflexivity.
    + destruct Hwf as (_ & Hpc).
      destruct (started (loop s));
        [destruct Hpc as ((pc & Hc) & _)|destruct Hpc as (Hc & _)];
        congruence.
Qed.

Lemma hammer_lifetime_witness :
  exists s,
    run [CallStart; LoopInit; SourceSend; CallStop] (NewScheduler []) = Ok s /\
    exec HammerQuit s = NotEnabled.
Proof.
  eexists. split; [by_vm|].
  match goal with
  | |- exec HammerQuit ?s = _ =>
      assert (Hr : run [CallStart; LoopInit; SourceSend; CallStop]
                     (NewScheduler []) = Ok s) by by_vm;
      exact (proj2 (hammer_lifetime _ _ s Hr) eq_refl)
  end.
Defined.

(** ** Shutdown *)



Lemma left_behind_step (e : event) (s s' : scheduler) :
  exec e s = Ok s' -> exited (loop s) = true ->
  (thr s = TRecv -> thr s' = TRecv \/ thr s' = TSend) /\
  (thr s = TSend -> thr s' = TSend).
Proof.
  intros H Hx. step_analysis e H; try rewrite Heql in Hx;
    try discriminate Hx; split; intros Ht; try congruence; auto.
Qed.

(** The throttle goroutine can be left behind by Stop. If it is waiting
    for a signal or holding one when the loop has taken its quit case, it
    never returns: it stays there or, given the zero value by the closed
    s.signal, goes on to its send to the loop, which nobody receives any
    more. Stopping an unthrottled scheduler in which nothing can move puts
    it in this situation. *)
Theorem throttle_left_behind :
  (forall s tr s',
     exited (loop s) = true -> thr s = TRecv \/ thr s = TSend ->
     run tr s = Ok s' ->
     (thr s' = TRecv \/ thr s' = TSend) /\ (thr s = TSend -> thr s' = TSend)) /\
  (forall s,
     alive s = true -> quiescent s = true ->
     exists s1, run [CallStop; LoopRecvQuit] s = Ok s1 /\
                exited (loop s1) = true /\ thr s1 = TRecv) /\
  (forall cfgs tr s,
     run tr (NewScheduler cfgs) = Ok s -> loop s = LDone -> thr s = TRecv ->
     exists s', exec ThrottleRecvSignal s = Ok s' /\ thr s' = TSend).
Proof.
  split; [|split].
  - intros s tr. revert s.
    induction tr as [|e tr IH]; intros s s' Hx Ht Hr; simpl in Hr.
    + injection Hr as <-. tauto.
    + destruct (exec e s) as [s1| |] eqn:He; simpl in Hr; try discriminate.
      destruct (left_behind_step e s s1 He Hx) as [H1 H2].
      destruct (exited_step e s s1 He Hx) as [Hx1 _].
      assert (Ht1 : thr s1 = TRecv \/ thr s1 = TSend)
        by (destruct Ht; auto).
      destruct (IH s1 s' Hx1 Ht1 Hr) as [H3 H4].
      split; [exact H3|]. intros Hs. apply H4. apply H2. exact Hs.
  - intros s Ha Hq.
    destruct (alive_quiescent s Ha Hq) as (_ & El & Et).
    apply alive_spec in Ha. destruct Ha as (_ & Hqc & _).
    destruct s as [iv w [ql qc qb] sg lp src t hq nw dl aa ta ts n].
    cbn in El, Et, Hqc. subst.
    eexists. split; [by_vm|]. split; reflexivity.
  - intros cfgs tr s Hr El Et.
    destruct (Inv_reach cfgs tr s Hr) as (_ & _ & Hcl & _).
    rewrite El in Hcl. unfold exec, Chan.recv, bind. rewrite Et, Hcl.
    destruct (Chan.len (signal s)); eexists; split; reflexivity.
Qed.

Lemma throttle_left_behind_witness :
  exists s s',
    run [CallStart; LoopInit; SourceSend; CallStop; LoopRecvQuit]
      (NewScheduler []) = Ok s /\
    run [LoopDeferWithChan; HammerQuit; LoopDeferClose; ThrottleRecvSignal;
         Advance second] s = Ok s' /\
    loop s' = LDone /\ source s' = Hammer HDone /\
    (thr s' = TRecv \/ thr s' = TSend).
Proof.
  eexists.
  match goal with
  | |- exists s', run ?tr ?i = Ok ?s /\ _ =>
      assert (Hr : run tr i = Ok s) by by_vm
  end.
  eexists. split; [exact Hr|].
  match goal with
  | |- run ?tr' ?s = Ok ?s' /\ _ =>
      assert (Hr' : run tr' s = Ok s') by by_vm;
      destruct (proj1 throttle_left_behind s tr' s' eq_refl
                  (or_introl eq_refl) Hr') as [Hp _]
  end.
  split; [exact Hr'|]. split; [reflexivity|]. split; [reflexivity|exact Hp].
Defined.

(** In throttled mode neither convert nor throttle ever returns, not even
    after Stop and the end of the loop goroutine: ticker.Stop() does not
    close the ticker's channel, so convert's range never ends, ch1 of
    throttle is never closed and the loop never receives from a closed
    t. *)
Theorem throttled_goroutines_never_return
  (cfgs : list ConfigFunc) (tr : list event) (s : scheduler) :
  existsb is_throttle cfgs = true ->
  run tr (NewScheduler cfgs) = Ok s ->
  thr s <> TDone /\
  exec ThrottleDone s = NotEnabled /\
  (started (loop s) = true -> exists pc, source s = Convert pc).
Proof.
  intros Hc Hr.
  assert (Hg : gated s).
  { apply (run_preserves gated gated_step tr (NewScheduler cfgs) s);
      [now apply gated_NewScheduler|exact Hr]. }
  destruct Hg as (Ht & Hsrc & Hthr).
  pose proof (Wf_reach cfgs tr s Hr) as Hwf. unfold Wf in Hwf.
  unfold throttled in Ht.
  destruct (withChan s); [discriminate|].
  split; [exact Hthr|split].
  - unfold exec. destruct (thr s); try reflexivity.
    destruct (source s) as [|[]|]; try reflexivity.
    exfalso. exact (Hsrc HDone eq_refl).
  - intros Hst. rewrite Hst in Hwf. tauto.
Qed.

Lemma throttled_goroutines_never_return_witness :
  exists s,
    run [CallStart; LoopInit; Tick; SourceSend; CallStop; LoopRecvQuit;
         LoopDeferWithChan; LoopDeferClose; ThrottleRecvSignal]
      (NewScheduler [WithThrottle millisecond]) = Ok s /\
    loop s = LDone /\ thr s <> TDone.
Proof.
  eexists. split; [by_vm|]. split; [reflexivity|].
  match goal with
  | |- thr ?s <> _ =>
      assert (Hr : run [CallStart; LoopInit; Tick; SourceSend; CallStop;
                        LoopRecvQuit; LoopDeferWithChan; LoopDeferClose;
                        ThrottleRecvSignal]
                     (NewScheduler [WithThrottle millisecond]) = Ok s)
        by by_vm;
      exact (proj1 (throttled_goroutines_never_return
                      [WithThrottle millisecond] _ s eq_refl Hr))
  end.
Defined.

(** ** Calls of the clock *)

Lemma repeat_snoc (x : Z) (n : nat) :
  (repeat x n ++ [x])%list = repeat x (S n).
Proof. induction n as [|n IH]; simpl; [reflexivity|now rewrite IH]. Qed.

Lemma after_step (e : event) (s s' : scheduler) :
  exec e s = Ok s' ->
  afterArgs s'
  = (afterArgs s
     ++ repeat (interval s)
          (b2n (event_eqb LoopInit e) + b2n (event_eqb LoopTarget e)
           + b2n (event_eqb LoopSignal e)))%list.
Proof.
  intros H. step_analysis e H; rewrite ?app_nil_r; reflexivity.
Qed.

(** s.clock.After is called once for every entry of the select, the first
    one and those after a call of target and after the post of the timer
    case, and always with the configured interval: the arguments recorded
    by the clock are that many copies of it. *)
Theorem after_called_per_select_entry
  (cfgs : list ConfigFunc) (tr : list event) (s : scheduler) :
  run tr (NewScheduler cfgs) = Ok s ->
  afterArgs s = repeat (configured_interval cfgs) (select_entries tr).
Proof.
  intros Hr.
  assert (Hgen : forall tr s0 s1 n,
             interval s0 = configured_interval cfgs ->
             afterArgs s0 = repeat (configured_interval cfgs) n ->
             run tr s0 = Ok s1 ->
             afterArgs s1
             = repeat (configured_interval cfgs) (n + select_entries tr)).
  { clear. intros tr. induction tr as [|e tr IH];
      intros s0 s1 n Hi Ha Hr; simpl in Hr.
    - injection Hr as <-. unfold select_entries, count. simpl.
      now rewrite Nat.add_0_r.
    - destruct (exec e s0) as [s2| |] eqn:He; simpl in Hr; try discriminate.
      destruct (settings_step e s0 s2 He) as [Hi2 _].
      pose proof (after_step e s0 s2 He) as Ha2.
      rewrite Ha, Hi, <- repeat_app in Ha2.
      rewrite (IH s2 s1 _ (eq_trans Hi2 Hi) Ha2 Hr).
      f_equal. unfold select_entries. rewrite !count_cons. lia. }
  destruct (settings_reach cfgs [] (NewScheduler cfgs) eq_refl) as [Hi _].
  destruct (fold_config_fields cfgs
    (mkScheduler second UseHammer (Chan.make 0) (Chan.make 1)
       LCreated NoSource TNone (Chan.make 0) 0 0 [] [] false 0))
    as (_ & _ & _ & _ & _ & _ & _ & Ha & _).
  exact (Hgen tr (NewScheduler cfgs) s 0 Hi Ha Hr).
Qed.

Lemma after_called_per_select_entry_witness :
  exists s,
    run [CallStart; LoopInit; Advance 5; LoopRecvAfter; LoopSignal;
         SourceSend; ThrottleRecvSignal; LoopRecvT; LoopTarget]
      (NewScheduler [WithInterval 5]) = Ok s /\
    afterArgs s = [5; 5; 5]%Z.
Proof.
  eexists. split; [by_vm|].
  match goal with
  | |- afterArgs ?s = _ =>
      assert (Hr : run [CallStart; LoopInit; Advance 5; LoopRecvAfter;
                        LoopSignal; SourceSend; ThrottleRecvSignal;
                        LoopRecvT; LoopTarget]
                     (NewScheduler [WithInterval 5]) = Ok s) by by_vm;
      exact (after_called_per_select_entry [WithInterval 5] _ s Hr)
  end.
Defined.

(** ** convert *)

Lemma convert_step (e : event) (s s' : scheduler) :
  Wf s -> throttled s = true -> exec e s = Ok s' ->
  b2n (event_eqb Tick e) + b2n (convert_sending s)
  = b2n (event_eqb SourceSend e) + b2n (convert_sending s').
Proof.
  unfold Wf, throttled, convert_sending. intros Hwf Ht H.
  destruct (withChan s) eqn:Hw; [discriminate|].
  destruct Hwf as (_ & Hpc).
  step_analysis e H;
    try match goal with E : withChan s = _ |- _ => rewrite E in * end;
    try discriminate; cbn in *;
    repeat match goal with
      | H : _ /\ _ |- _ => destruct H
      | H : exists _, _ |- _ => destruct H
      end;
    try congruence; try reflexivity;
    try match goal with E : source s = _ |- _ => rewrite E; reflexivity end;
    try (destruct (source s) as [|[]|[]]; reflexivity).
  all: try (destruct (loop s); cbn in *;
            repeat match goal with
              | H : _ /\ _ |- _ => destruct H
              | H : exists _, _ |- _ => destruct H
              end; congruence).
Qed.

(** convert hands every tick of the ticker to throttle, one for one: in
    throttled mode the ticks delivered by the ticker are those throttle
    has taken plus at most one that convert is still holding; no tick is
    dropped or taken twice. *)
Theorem convert_forwards_each_tick
  (cfgs : list ConfigFunc) (tr : list event) (s : scheduler) :
  existsb is_throttle cfgs = true ->
  run tr (NewScheduler cfgs) = Ok s ->
  count Tick tr = count SourceSend tr + b2n (convert_sending s).
Proof.
  intros Hc Hr.
  assert (Hgen : forall tr s0 s1,
             Inv s0 -> Wf s0 -> throttled s0 = true -> run tr s0 = Ok s1 ->
             count Tick tr + b2n (convert_sending s0)
             = count SourceSend tr + b2n (convert_sending s1)).
  { clear. intros tr. induction tr as [|e tr IH];
      intros s0 s1 Hi Hw Ht Hr; simpl in Hr.
    - injection Hr as <-. reflexivity.
    - destruct (exec e s0) as [s2| |] eqn:He; simpl in Hr; try discriminate.
      pose proof (convert_step e s0 s2 Hw Ht He) as H1.
      assert (Ht2 : throttled s2 = true).
      { unfold throttled in *.
        destruct (settings_step e s0 s2 He) as [_ ->]. exact Ht. }
      pose proof (IH s2 s1 (Inv_step e s0 s2 Hi He)
                    (Wf_step e s0 s2 Hi Hw He) Ht2 Hr) as H2.
      rewrite !count_cons. lia. }
  pose proof (Hgen tr (NewScheduler cfgs) s (Inv_NewScheduler cfgs)
                (Wf_NewScheduler cfgs)) as H.
  rewrite NewScheduler_throttled in H. specialize (H Hc Hr).
  destruct (NewScheduler_created cfgs) as (_ & _ & _ & Hsrc & _).
  unfold convert_sending in H at 1. rewrite Hsrc in H. simpl in H. lia.
Qed.

Lemma convert_forwards_each_tick_witness :
  exists s,
    run [CallStart; LoopInit; Tick; SourceSend; Tick; CallSignal;
         ThrottleRecvSignal; LoopRecvT; SourceSend; Tick]
      (NewScheduler [WithThrottle millisecond]) = Ok s /\
    3 = 2 + b2n (convert_sending s).
Proof.
  eexists. split; [by_vm|].
  match goal with
  | |- _ = _ + b2n (convert_sending ?s) =>
      assert (Hr : run [CallStart; LoopInit; Tick; SourceSend; Tick;
                        CallSignal; ThrottleRecvSignal; LoopRecvT;
                        SourceSend; Tick]
                     (NewScheduler [WithThrottle millisecond]) = Ok s)
        by by_vm;
      exact (convert_forwards_each_tick [WithThrottle millisecond]
               _ s eq_refl Hr)
  end.
Defined.

(** ** Pure interval firing *)

Lemma timer_post (d : Z) (s sa sb sc : scheduler) :
  alive s = true -> pending s = 0 ->
  exec (Advance d) s = Ok sa -> exec LoopRecvAfter sa = Ok sb ->
  exec LoopSignal sb = Ok sc ->
  alive sc = true /\ invocations sc = invocations s /\ pending sc = 1.
Proof.
  intros Ha Hp H1 H2 H3. apply alive_spec in Ha.
  destruct Ha as (Hw & Hq & Hs & Hc & Hl & Hpc).
  unfold pending, thr_sending, loop_at_target in Hp.
  destruct s as [iv w q [l c b] lp src t hq nw dl aa ta ts n].
  cbn in Hw, Hq, Hs, Hc, Hl, Hpc, Hp. subst w c b.
  unfold exec in H1. destruct (0 <=? d)%Z; try discriminate.
  injection H1 as <-.
  destruct Hpc as [(El & Es & Et)|([El | El] & Es & [Et | [Et | Et]] & Eh)];
    subst; cbn in H2, Hp; try discriminate; try lia;
    destruct (Clock.ready dl (nw + d)); try discriminate;
    injection H2 as <-;
    assert (l = 0) by lia; subst l;
    cbn in H3; injection H3 as <-;
    (split; [apply alive_spec; cbn; repeat split; auto; right; tauto
            |split; reflexivity]).
Qed.

Lemma periodic_round (d : Z) (r : list event) (s s1 : scheduler) :
  alive s = true -> pending s = 0 ->
  run (Advance d :: LoopRecvAfter :: LoopSignal :: r) s = Ok s1 ->
  forallb internal r = true -> quiescent s1 = true ->
  alive s1 = true /\ pending s1 = 0 /\ invocations s1 = S (invocations s).
Proof.
  intros Ha Hp Hr Hint Hq. cbn [run] in Hr.
  destruct (exec (Advance d) s) as [sa| |] eqn:H1;
    cbn [bind] in Hr; try discriminate.
  destruct (exec LoopRecvAfter sa) as [sb| |] eqn:H2;
    cbn [bind] in Hr; try discriminate.
  destruct (exec LoopSignal sb) as [sc| |] eqn:H3;
    cbn [bind] in Hr; try discriminate.
  destruct (timer_post d s sa sb sc Ha Hp H1 H2 H3) as (Hac & Hic & Hpc).
  destruct (alive_internal_run r sc s1 Hac Hint Hr) as (Ha1 & Hsum).
  destruct (alive_quiescent s1 Ha1 Hq) as (Hp1 & _).
  repeat split; [assumption|assumption|lia].
Qed.

Lemma settings_run (tr : list event) (s s' : scheduler) :
  run tr s = Ok s' -> interval s' = interval s /\ withChan s' = withChan s.
Proof.
  revert s; induction tr as [|e tr IH]; intros s Hr; simpl in Hr.
  - injection Hr as <-. split; reflexivity.
  - destruct (exec e s) as [s1| |] eqn:He; simpl in Hr; try discriminate.
    destruct (settings_step e s s1 He) as [H1 H2].
    destruct (IH s1 Hr) as [H3 H4]. split; congruence.
Qed.

(** While the loop waits in the select, the countdown ends at most one
    interval ahead. *)
Lemma armed_step (e : event) (s s' : scheduler) :
  exec e s = Ok s' ->
  (loop s = LSelect -> (deadline s <= now s + Z.max 0 (interval s))%Z) ->
  loop s' = LSelect -> (deadline s' <= now s' + Z.max 0 (interval s'))%Z.
Proof.
  intros H Hd Hl.
  step_analysis e H; try discriminate Hl;
    try specialize (Hd eq_refl); try specialize (Hd Hl); lia.
Qed.

Lemma armed_run (tr : list event) (s s' : scheduler) :
  run tr s = Ok s' ->
  (loop s = LSelect -> (deadline s <= now s + Z.max 0 (interval s))%Z) ->
  loop s' = LSelect -> (deadline s' <= now s' + Z.max 0 (interval s'))%Z.
Proof.
  revert s; induction tr as [|e tr IH]; intros s Hr Hd; simpl in Hr.
  - injection Hr as <-. exact Hd.
  - destruct (exec e s) as [s1| |] eqn:He; simpl in Hr; try discriminate.
    apply (IH s1 Hr). exact (armed_step e s s1 He Hd).
Qed.

Lemma exec_advance (d : Z) (s : scheduler) :
  (0 <= d)%Z -> exec (Advance d) s = Ok (set_now (now s + d) s).
Proof. intros H. unfold exec. apply Z.leb_le in H. now rewrite H. Qed.

Lemma exec_timer_case (s : scheduler) :
  loop s = LSelect -> (deadline s <= now s)%Z ->
  exec LoopRecvAfter s = Ok (set_loop LSignal s).
Proof.
  intros Hl H. unfold exec, Clock.ready. rewrite Hl.
  apply Z.leb_le in H. now rewrite H.
Qed.

Lemma periodic_round_runs (s : scheduler) :
  alive s = true -> quiescent s = true ->
  (deadline s <= now s + Z.max 0 (interval s))%Z ->
  exists s1,
    run (Advance (Z.max 0 (interval s)) :: LoopRecvAfter :: LoopSignal
         :: process_signal) s = Ok s1 /\
    quiescent s1 = true /\ interval s1 = interval s /\
    (deadline s1 <= now s1 + Z.max 0 (interval s1))%Z.
Proof.
  intros Ha Hq Hd.
  destruct (alive_quiescent s Ha Hq) as (Hp & El & Et).
  pose proof Ha as Ha'. apply alive_spec in Ha'.
  destruct Ha' as (Hw & Hqc & Hs & Hc & Hl & Hpc).
  destruct Hpc as [(E & _)|(_ & Es & _ & Eh)]; [congruence|].
  unfold pending in Hp. assert (Hlen : Chan.len (signal s) = 0) by lia.
  assert (Hrun : exists s1,
            run (Advance (Z.max 0 (interval s)) :: LoopRecvAfter
                 :: LoopSignal :: process_signal) s = Ok s1 /\
            quiescent s1 = true /\ loop s1 = LSelect).
  { cbn [run].
    rewrite (exec_advance (Z.max 0 (interval s)) s (Z.le_max_l _ _)).
    cbn [bind]. rewrite exec_timer_case; [|exact El|exact Hd]. cbn [bind].
    clear Ha Hq Hp Hl Hd.
    destruct s
      as [iv w [ql qc qb] [l c b] lp src t [hl hc hb] nw dl aa ta ts n].
    cbn in Hw, Hqc, Hs, Hc, El, Et, Es, Eh, Hlen. subst.
    eexists. split; [by_vm|]. split; by_vm. }
  destruct Hrun as (s1 & Hrun & Hq1 & El1).
  exists s1. split; [exact Hrun|]. split; [exact Hq1|].
  split; [exact (proj1 (settings_run _ s s1 Hrun))|].
  exact (armed_run _ s s1 Hrun (fun _ => Hd) El1).
Qed.

(** Pure interval firing, as in TestAutomaticPeriod: from a running
    unthrottled scheduler with nothing pending, any number of rounds, in
    each of which the loop takes the timer case and posts and the
    goroutines then run until nothing more can move, ends with exactly
    one call of target per round; and from a state in which nothing can
    move such rounds exist for every number of timer events, each after
    the interval has passed. *)
Theorem interval_firing (s0 : scheduler) :
  alive s0 = true -> pending s0 = 0 ->
  (forall rounds s', run_periodic rounds s0 = Ok s' ->
     invocations s' = invocations s0 + List.length rounds) /\
  (quiescent s0 = true ->
   (deadline s0 <= now s0 + Z.max 0 (interval s0))%Z ->
   forall N, exists s',
     run_periodic (repeat (Z.max 0 (interval s0), process_signal) N) s0
     = Ok s' /\
     invocations s' = invocations s0 + N).
Proof.
  intros Ha Hp. split.
  - intros rounds. revert s0 Ha Hp.
    induction rounds as [|[d r] rs IH]; intros s0 Ha Hp s' Hrun;
      cbn [run_periodic] in Hrun.
    + injection Hrun as <-. simpl. lia.
    + destruct (run (Advance d :: LoopRecvAfter :: LoopSignal :: r) s0)
        as [s1| |] eqn:H1; cbn [bind] in Hrun; try discriminate.
      destruct (forallb internal r) eqn:Hint; cbn [andb] in Hrun;
        try discriminate.
      destruct (quiescent s1) eqn:Hq; try discriminate.
      destruct (periodic_round d r s0 s1 Ha Hp H1 Hint Hq)
        as (Ha1 & Hp1 & Hi1).
      rewrite (IH s1 Ha1 Hp1 s' Hrun), Hi1. simpl. lia.
  - intros Hq Hd N. revert s0 Ha Hp Hq Hd.
    induction N as [|N IH]; intros s0 Ha Hp Hq Hd.
    + exists s0. simpl. split; [reflexivity|lia].
    + destruct (periodic_round_runs s0 Ha Hq Hd) as (s1 & H1 & Hq1 & Hi1 & Hd1).
      destruct (periodic_round _ process_signal s0 s1 Ha Hp H1 eq_refl Hq1)
        as (Ha1 & Hp1 & Hinv1).
      destruct (IH s1 Ha1 Hp1 Hq1 Hd1) as (s' & Hs' & Hi').
      exists s'. split; [|lia].
      cbn [repeat run_periodic]. rewrite H1. cbn [bind]. rewrite Hq1.
      replace (forallb internal process_signal) with true by reflexivity.
      cbn [andb]. rewrite <- Hi1. exact Hs'.
Qed.

Lemma interval_firing_witness :
  exists s0 s',
    run [CallStart; LoopInit; SourceSend] (NewScheduler []) = Ok s0 /\
    run_periodic [(second, process_signal);
                  (2 * second, [ThrottleRecvSignal; LoopRecvT; SourceSend;
                                LoopTarget])%Z;
                  (second, process_signal)] s0 = Ok s' /\
    invocations s' = invocations s0 + 3.
Proof.
  eexists. eexists. split; [by_vm|].
  match goal with
  | |- run_periodic ?rs ?s0 = Ok ?s' /\ _ =>
      assert (Hr : run_periodic rs s0 = Ok s') by by_vm;
      assert (Ha : alive s0 = true) by by_vm;
      assert (Hp : pending s0 = 0) by by_vm;
      exact (conj Hr (proj1 (interval_firing s0 Ha Hp) rs s' Hr))
  end.
Defined.

(** ** Bursts of signals in throttled mode *)

Lemma talive_spec (s : scheduler) :
  talive s = true <->
  throttled s = true /\ Chan.closed (quit s) = false /\
  Chan.closed (signal s) = false /\ Chan.cap (signal s) = 1 /\
  Chan.len (signal s) <= 1 /\
  ((loop s = LSpawned /\ source s = NoSource /\ thr s = TNone) \/
   ((loop s = LSelect \/ loop s = LTarget) /\
    (source s = Convert CRange \/ source s = Convert CSend) /\
    (thr s = TRange \/ thr s = TRecv \/ thr s = TSend))).
Proof.
  unfold talive.
  rewrite !andb_true_iff, !negb_true_iff, Nat.eqb_eq, Nat.leb_le.
  split.
  - intros (((((Hw & Hq) & Hs) & Hc) & Hl) & Hpc).
    repeat split; try assumption.
    destruct (loop s), (source s) as [|[]|[]], (thr s); try discriminate;
      intuition.
  - intros (Hw & Hq & Hs & Hc & Hl & Hpc).
    repeat split; try assumption.
    destruct Hpc
      as [(-> & -> & ->)|([-> | ->] & [-> | ->] & [-> | [-> | ->]])];
      reflexivity.
Qed.

Lemma talive_internal_step (e : event) (s s' : scheduler) :
  talive s = true -> internal e = true -> exec e s = Ok s' ->
  talive s' = true /\
  invocations s' + pending s' = invocations s + pending s /\
  invocations s' + permits s' = invocations s + permits s.
Proof.
  rewrite !talive_spec.
  unfold throttled, pending, permits, convert_sending, thr_receiving,
    thr_sending, loop_at_target.
  intros (Hw & Hq & Hs & Hc & Hl & Hpc) Hint H.
  step_analysis e H; try discriminate Hint;
    try (exfalso; intuition congruence);
    try match goal with E : withChan s = _ |- _ => rewrite E in * end;
    try discriminate;
    (split; [repeat split; try assumption; try reflexivity;
             try (intuition congruence)
            |repeat match goal with
               | E : ?x = _ |- context [match ?x with _ => _ end] => rewrite E
               end; simpl; try lia]).
  all: try (destruct (thr s); simpl;
            try (destruct (source s) as [|[]|[]]; simpl);
            try (destruct (loop s); simpl);
            try lia; exfalso; intuition congruence).
  all: try (destruct (source s) as [|[]|[]]; simpl;
            try (destruct (loop s); simpl);
            try lia; exfalso; intuition congruence).
  all: try (destruct (loop s); simpl;
            try lia; exfalso; intuition congruence).
Qed.

Lemma talive_internal_run (tr : list event) (s s' : scheduler) :
  talive s = true -> forallb internal tr = true -> run tr s = Ok s' ->
  talive s' = true /\
  invocations s' + pending s' = invocations s + pending s /\
  invocations s' + permits s' = invocations s + permits s.
Proof.
  revert s; induction tr as [|e tr IH]; intros s Ha Hint Hr; simpl in *.
  - inversion Hr; subst; auto.
  - apply andb_true_iff in Hint as [He Htr].
    destruct (exec e s) as [s1| |] eqn:Hx; simpl in Hr; try discriminate.
    destruct (talive_internal_step e s s1 Ha He Hx) as (Ha1 & H1 & H1').
    destruct (IH s1 Ha1 Htr Hr) as (Ha2 & H2 & H2').
    split; [assumption|split; lia].
Qed.

(** One or more calls of Signal on an open one-slot buffer leave exactly
    one signal in it and change nothing else. *)
Lemma signals_fill (s : scheduler) (k : nat) :
  Chan.cap (signal s) = 1 -> Chan.closed (signal s) = false ->
  Chan.len (signal s) <= 1 ->
  run (repeat CallSignal (S k)) s = Ok (set_signal (Chan.mk 1 1 false) s).
Proof.
  intros Hc Hcl Hl.
  assert (H1 : exec CallSignal s = Ok (set_signal (Chan.mk 1 1 false) s)).
  { unfold exec, Signal, Chan.try_send, bind. rewrite Hcl, Hc.
    destruct (signal s) as [l c b] eqn:Es. cbn in Hc, Hcl, Hl |- *. subst.
    destruct l as [|[|l]]; [reflexivity|reflexivity|lia]. }
  cbn [repeat run]. rewrite H1. cbn [bind].
  now apply signal_full_noop.
Qed.

Lemma talive_quiescent (s : scheduler) :
  talive s = true -> quiescent s = true ->
  loop s = LSelect /\
  ((thr s = TRange /\ source s = Convert CRange) \/
   (thr s = TRecv /\ Chan.len (signal s) = 0)).
Proof.
  rewrite talive_spec. unfold quiescent, internal_events, enabled.
  intros (Hw & Hq & Hs & Hc & Hl & Hpc) Hn.
  destruct s as [iv w [ql qc qb] [l c b] lp src t hq nw dl aa ta ts n].
  cbn in Hw, Hq, Hs, Hc, Hl, Hpc. subst.
  destruct Hpc
    as [(El & Es & Et)|([El | El] & [Es | Es] & [Et | [Et | Et]])];
    subst; cbn in Hn; try discriminate Hn; cbn; auto.
  - destruct l; cbn in Hn; [auto|discriminate Hn].
  - destruct l; cbn in Hn; [auto|discriminate Hn].
Qed.

Lemma bursts_round (a b : nat) (r : list event) (s s1 s2 s3 : scheduler) :
  talive s = true -> permits s = 0 ->
  run (repeat CallSignal (S a) ++ [Tick]) s = Ok s1 ->
  run r s1 = Ok s2 -> forallb internal r = true -> quiescent s2 = true ->
  run (repeat CallSignal b) s2 = Ok s3 ->
  talive s3 = true /\ permits s3 = 0 /\ loop s3 = LSelect /\
  invocations s3 = S (invocations s).
Proof.
  intros Ha Hp H1 H2 Hint Hq H3.
  pose proof Ha as Ha'. apply talive_spec in Ha'.
  destruct Ha' as (Hw & Hqc & Hs & Hc & Hl & Hpc).
  rewrite run_app, (signals_fill s a Hc Hs Hl) in H1. cbn [bind run] in H1.
  destruct (exec Tick (set_signal (Chan.mk 1 1 false) s)) as [sb| |] eqn:Ht;
    cbn [bind] in H1; try discriminate.
  injection H1 as <-.
  assert (Hb : talive sb = true /\ invocations sb = invocations s /\
               pending sb = 1 /\ permits sb = 1).
  { unfold exec in Ht. cbn in Ht.
    unfold permits, convert_sending, thr_receiving, thr_sending,
      loop_at_target in Hp.
    destruct (source s) as [|[]|[]] eqn:Es; try discriminate.
    injection Ht as <-.
    unfold pending, permits, convert_sending, thr_receiving, thr_sending,
      loop_at_target. cbn.
    destruct Hpc as [(El & E & Et)|([El | El] & _ & [Et | [Et | Et]])];
      try congruence; rewrite El, Et in *; cbn in Hp |- *; try lia.
    split; [|auto].
    apply talive_spec. cbn. rewrite ?El, ?Es, ?Et. repeat split; auto. }
  destruct Hb as (Hab & Hib & Hpb & Hmb).
  destruct (talive_internal_run r sb s2 Hab Hint H2) as (Ha2 & Hsum & Hsum').
  destruct (talive_quiescent s2 Ha2 Hq) as (El2 & Hcase).
  assert (Hfin : invocations s2 = S (invocations s) /\ permits s2 = 0).
  { rewrite Hpb, Hib in Hsum. rewrite Hmb, Hib in Hsum'.
    unfold pending, permits, convert_sending, thr_receiving, thr_sending,
      loop_at_target in Hsum, Hsum' |- *.
    rewrite El2 in Hsum, Hsum' |- *.
    destruct Hcase as [(Et & Es)|(Et & Hl0)].
    - rewrite Et in Hsum, Hsum' |- *. rewrite Es in Hsum' |- *.
      cbn [b2n] in Hsum, Hsum' |- *. lia.
    - rewrite Et in Hsum, Hsum' |- *. rewrite Hl0 in Hsum.
      destruct (source s2) as [|[]|[]];
        cbn [b2n] in Hsum, Hsum' |- *; lia. }
  destruct Hfin as (Hi2 & Hp2).
  pose proof Ha2 as Ha2'. apply talive_spec in Ha2'.
  destruct Ha2' as (Hw2 & Hqc2 & Hs2 & Hc2 & Hl2 & Hpc2).
  destruct b as [|b].
  - cbn in H3. injection H3 as <-. auto.
  - rewrite (signals_fill s2 b Hc2 Hs2 Hl2) in H3. injection H3 as <-.
    split; [|split; [exact Hp2|split; [exact El2|exact Hi2]]].
    apply talive_spec. cbn. repeat split; auto.
Qed.

Lemma bursts_round_runs (a b : nat) (s : scheduler) :
  talive s = true -> permits s = 0 -> loop s = LSelect ->
  exists s1 s2 s3,
    run (repeat CallSignal (S a) ++ [Tick]) s = Ok s1 /\
    run process_tick s1 = Ok s2 /\ quiescent s2 = true /\
    run (repeat CallSignal b) s2 = Ok s3.
Proof.
  intros Ha Hp El. apply talive_spec in Ha.
  destruct Ha as (Hw & Hqc & Hs & Hc & Hl & Hpc).
  rewrite run_app, (signals_fill s a Hc Hs Hl). cbn [bind].
  unfold permits, convert_sending, thr_receiving, thr_sending,
    loop_at_target in Hp.
  unfold throttled in Hw.
  destruct s as [iv w [ql qc qb] [l c b0] lp src t hq nw dl aa ta ts n].
  cbn in Hw, Hqc, Hs, Hc, Hl, Hpc, Hp, El. subst.
  destruct w; [discriminate|].
  destruct Hpc as [(E & _)|(_ & [Es | Es] & [Et | [Et | Et]])];
    try discriminate E; subst; cbn in Hp; try lia.
  assert (H2 : exists s2,
            run process_tick
              (set_source (Convert CSend)
                 (set_signal (Chan.mk 1 1 false)
                    (mkScheduler iv (UseTicker minInterval)
                       (Chan.mk ql qc false) (Chan.mk l 1 false) LSelect
                       (Convert CRange) TRange hq nw dl aa ta ts n)))
            = Ok s2 /\ quiescent s2 = true /\
            Chan.cap (signal s2) = 1 /\ Chan.closed (signal s2) = false /\
            Chan.len (signal s2) <= 1).
  { eexists. split; [by_vm|]. split; [by_vm|]. cbn. auto. }
  destruct H2 as (s2 & H2 & Hq2 & Hc2 & Hs2 & Hl2).
  assert (H3 : exists s3, run (repeat CallSignal b) s2 = Ok s3).
  { destruct b as [|b]; [exists s2; reflexivity|].
    eexists. exact (signals_fill s2 b Hc2 Hs2 Hl2). }
  destruct H3 as (s3 & H3).
  eexists. exists s2, s3.
  split; [by_vm|]. split; [exact H2|]. split; [exact Hq2|exact H3].
Qed.

(** TestThrottledExplicitFire in general: from a running throttled
    scheduler with no unused tick, any number of rounds, each with one or
    more calls of Signal, then a tick, then the goroutines running until
    nothing more can move, then any number of further calls of Signal,
    ends with exactly one call of target per round, whatever the sizes of
    the bursts and however the goroutines are scheduled; and such rounds
    exist for all burst sizes. *)
Theorem bursts_fire_once_per_tick (s0 : scheduler) :
  talive s0 = true -> permits s0 = 0 ->
  (forall rounds s', run_bursts rounds s0 = Ok s' ->
     invocations s' = invocations s0 + List.length rounds) /\
  (loop s0 = LSelect ->
   forall shapes : list (nat * nat), exists s',
     run_bursts (map (fun ab => (fst ab, process_tick, snd ab)) shapes) s0
     = Ok s' /\
     invocations s' = invocations s0 + List.length shapes).
Proof.
  intros Ha Hp. split.
  - intros rounds. revert s0 Ha Hp.
    induction rounds as [|[[a r] b] rs IH]; intros s0 Ha Hp s' Hrun;
      cbn [run_bursts] in Hrun.
    + injection Hrun as <-. simpl. lia.
    + destruct (run (repeat CallSignal (S a) ++ [Tick]) s0)
        as [s1| |] eqn:H1; cbn [bind] in Hrun; try discriminate.
      destruct (run r s1) as [s2| |] eqn:H2;
        cbn [bind] in Hrun; try discriminate.
      destruct (forallb internal r) eqn:Hint; cbn [andb] in Hrun;
        try discriminate.
      destruct (quiescent s2) eqn:Hq; try discriminate.
      destruct (run (repeat CallSignal b) s2) as [s3| |] eqn:H3;
        cbn [bind] in Hrun; try discriminate.
      destruct (bursts_round a b r s0 s1 s2 s3 Ha Hp H1 H2 Hint Hq H3)
        as (Ha3 & Hp3 & _ & Hi3).
      rewrite (IH s3 Ha3 Hp3 s' Hrun), Hi3. simpl. lia.
  - intros El shapes. revert s0 Ha Hp El.
    induction shapes as [|[a b] shapes IH]; intros s0 Ha Hp El.
    + exists s0. simpl. split; [reflexivity|lia].
    + destruct (bursts_round_runs a b s0 Ha Hp El)
        as (s1 & s2 & s3 & H1 & H2 & Hq & H3).
      destruct (bursts_round a b process_tick s0 s1 s2 s3
                  Ha Hp H1 H2 eq_refl Hq H3) as (Ha3 & Hp3 & El3 & Hi3).
      destruct (IH s3 Ha3 Hp3 El3) as (s' & Hs' & Hi').
      exists s'. split; [|simpl; lia].
      cbn [map run_bursts fst snd]. rewrite H1. cbn [bind]. rewrite H2.
      cbn [bind]. rewrite Hq.
      replace (forallb internal process_tick) with true by reflexivity.
      cbn [andb]. rewrite H3. cbn [bind]. exact Hs'.
Qed.

Lemma bursts_fire_once_per_tick_witness :
  exists s0 s',
    run [CallStart; LoopInit] (NewScheduler [WithThrottle millisecond])
    = Ok s0 /\
    run_bursts [(0, process_tick, 3);
                (5, [SourceSend; ThrottleRecvSignal; LoopRecvT; LoopTarget],
                 0);
                (0, process_tick, 1)] s0 = Ok s' /\
    invocations s' = invocations s0 + 3.
Proof.
  eexists. eexists. split; [by_vm|].
  match goal with
  | |- run_bursts ?rs ?s0 = Ok ?s' /\ _ =>
      assert (Hr : run_bursts rs s0 = Ok s') by by_vm;
      assert (Ha : talive s0 = true) by by_vm;
      assert (Hp : permits s0 = 0) by by_vm;
      exact (conj Hr (proj1 (bursts_fire_once_per_tick s0 Ha Hp) rs s' Hr))
  end.
Defined.

(** ** Interval firing in throttled mode *)

Lemma talive_ticking_step (e : event) (s s' : scheduler) :
  talive s = true -> ticking e = true -> exec e s = Ok s' ->
  talive s' = true /\
  invocations s' + pending s' = invocations s + pending s.
Proof.
  intros Ha Ht H. unfold ticking in Ht. apply orb_true_iff in Ht as [Hi|Hk].
  - destruct (talive_internal_step e s s' Ha Hi H) as (H1 & H2 & _). auto.
  - destruct e; try discriminate Hk.
    apply talive_spec in Ha. destruct Ha as (Hw & Hq & Hs & Hc & Hl & Hpc).
    unfold exec in H. destruct (source s) as [|[]|[]] eqn:Es; try discriminate.
    injection H as <-. split; [|reflexivity].
    apply talive_spec. cbn. repeat split; try assumption.
    destruct Hpc as [(_ & E & _)|(El & _ & Et)]; [congruence|].
    right. split; [exact El|]. split; [right; reflexivity|exact Et].
Qed.

Lemma talive_ticking_run (tr : list event) (s s' : scheduler) :
  talive s = true -> forallb ticking tr = true -> run tr s = Ok s' ->
  talive s' = true /\
  invocations s' + pending s' = invocations s + pending s.
Proof.
  revert s; induction tr as [|e tr IH]; intros s Ha Hint Hr; simpl in *.
  - inversion Hr; subst; auto.
  - apply andb_true_iff in Hint as [He Htr].
    destruct (exec e s) as [s1| |] eqn:Hx; simpl in Hr; try discriminate.
    destruct (talive_ticking_step e s s1 Ha He Hx) as (Ha1 & H1).
    destruct (IH s1 Ha1 Htr Hr) as (Ha2 & H2).
    split; [assumption|lia].
Qed.

Lemma throttled_timer_post (d : Z) (s sa sb sc : scheduler) :
  talive s = true -> pending s = 0 ->
  exec (Advance d) s = Ok sa -> exec LoopRecvAfter sa = Ok sb ->
  exec LoopSignal sb = Ok sc ->
  talive sc = true /\ invocations sc = invocations s /\ pending sc = 1.
Proof.
  intros Ha Hp H1 H2 H3. apply talive_spec in Ha.
  destruct Ha as (Hw & Hq & Hs & Hc & Hl & Hpc).
  unfold pending, thr_sending, loop_at_target in Hp.
  destruct s as [iv w q [l c b] lp src t hq nw dl aa ta ts n].
  cbn in Hw, Hq, Hs, Hc, Hl, Hpc, Hp. subst c b.
  unfold exec in H1. destruct (0 <=? d)%Z; try discriminate.
  injection H1 as <-.
  destruct Hpc
    as [(El & Es & Et)|([El | El] & [Es | Es] & [Et | [Et | Et]])];
    subst; cbn in H2, Hp; try discriminate; try lia;
    destruct (Clock.ready dl (nw + d)); try discriminate;
    injection H2 as <-;
    assert (l = 0) by lia; subst l;
    cbn in H3; injection H3 as <-;
    (split; [apply talive_spec; cbn; repeat split; auto; right; tauto
            |split; reflexivity]).
Qed.

Lemma talive_saturated (s : scheduler) :
  talive s = true -> saturated s = true ->
  loop s = LSelect /\ thr s = TRecv /\ source s = Convert CSend /\
  pending s = 0.
Proof.
  intros Ha Hsat. unfold saturated in Hsat.
  apply andb_true_iff in Hsat as [Hq Hk]. apply negb_true_iff in Hk.
  destruct (talive_quiescent s Ha Hq) as (El & Hcase).
  apply talive_spec in Ha. destruct Ha as (_ & _ & _ & _ & _ & Hpc).
  unfold enabled, exec in Hk. unfold pending, thr_sending, loop_at_target.
  destruct Hcase as [(Et & Es)|(Et & Hl0)].
  - rewrite Es in Hk. discriminate Hk.
  - rewrite El, Et, Hl0.
    destruct Hpc as [(E & _)|(_ & [Es | Es] & _)]; [congruence| |].
    + rewrite Es in Hk. discriminate Hk.
    + auto.
Qed.

Lemma ticking_round (d : Z) (r : list event) (s s1 : scheduler) :
  talive s = true -> pending s = 0 ->
  run (Advance d :: LoopRecvAfter :: LoopSignal :: r) s = Ok s1 ->
  forallb ticking r = true -> saturated s1 = true ->
  talive s1 = true /\ pending s1 = 0 /\ invocations s1 = S (invocations s).
Proof.
  intros Ha Hp Hr Hint Hq. cbn [run] in Hr.
  destruct (exec (Advance d) s) as [sa| |] eqn:H1;
    cbn [bind] in Hr; try discriminate.
  destruct (exec LoopRecvAfter sa) as [sb| |] eqn:H2;
    cbn [bind] in Hr; try discriminate.
  destruct (exec LoopSignal sb) as [sc| |] eqn:H3;
    cbn [bind] in Hr; try discriminate.
  destruct (throttled_timer_post d s sa sb sc Ha Hp H1 H2 H3)
    as (Hac & Hic & Hpc).
  destruct (talive_ticking_run r sc s1 Hac Hint Hr) as (Ha1 & Hsum).
  destruct (talive_saturated s1 Ha1 Hq) as (_ & _ & _ & Hp1).
  repeat split; [assumption|assumption|lia].
Qed.

Lemma ticking_round_runs (s : scheduler) :
  talive s = true -> saturated s = true ->
  (deadline s <= now s + Z.max 0 (interval s))%Z ->
  exists s1,
    run (Advance (Z.max 0 (interval s)) :: LoopRecvAfter :: LoopSignal
         :: process_post) s = Ok s1 /\
    saturated s1 = true /\ interval s1 = interval s /\
    (deadline s1 <= now s1 + Z.max 0 (interval s1))%Z.
Proof.
  intros Ha Hq Hd.
  destruct (talive_saturated s Ha Hq) as (El & Et & Es & Hp).
  pose proof Ha as Ha'. apply talive_spec in Ha'.
  destruct Ha' as (Hw & Hqc & Hs & Hc & Hl & Hpc).
  unfold pending in Hp. assert (Hlen : Chan.len (signal s) = 0) by lia.
  unfold throttled in Hw.
  assert (Hrun : exists s1,
            run (Advance (Z.max 0 (interval s)) :: LoopRecvAfter
                 :: LoopSignal :: process_post) s = Ok s1 /\
            saturated s1 = true /\ loop s1 = LSelect).
  { cbn [run].
    rewrite (exec_advance (Z.max 0 (interval s)) s (Z.le_max_l _ _)).
    cbn [bind]. rewrite exec_timer_case; [|exact El|exact Hd]. cbn [bind].
    clear Ha Hq Hp Hl Hd Hpc.
    destruct s
      as [iv w [ql qc qb] [l c b] lp src t [hl hc hb] nw dl aa ta ts n].
    cbn in Hw, Hqc, Hs, Hc, El, Et, Es, Hlen. subst.
    destruct w; [discriminate Hw|].
    eexists. split; [by_vm|]. split; by_vm. }
  destruct Hrun as (s1 & Hrun & Hq1 & El1).
  exists s1. split; [exact Hrun|]. split; [exact Hq1|].
  split; [exact (proj1 (settings_run _ s s1 Hrun))|].
  exact (armed_run _ s s1 Hrun (fun _ => Hd) El1).
Qed.

(** Interval firing in throttled mode, as in TestThrottledSchedule: from
    a running throttled scheduler with nothing pending, any number of
    rounds, in each of which the loop takes the timer case and posts and
    the goroutines and the ticker then run until no goroutine can move
    and no tick is taken, ends with exactly one call of target per
    round; and from such a state these rounds exist for every number of
    timer events, each after the interval has passed. *)
Theorem throttled_interval_firing (s0 : scheduler) :
  talive s0 = true -> pending s0 = 0 ->
  (forall rounds s', run_ticking rounds s0 = Ok s' ->
     invocations s' = invocations s0 + List.length rounds) /\
  (saturated s0 = true ->
   (deadline s0 <= now s0 + Z.max 0 (interval s0))%Z ->
   forall N, exists s',
     run_ticking (repeat (Z.max 0 (interval s0), process_post) N) s0
     = Ok s' /\
     invocations s' = invocations s0 + N).
Proof.
  intros Ha Hp. split.
  - intros rounds. revert s0 Ha Hp.
    induction rounds as [|[d r] rs IH]; intros s0 Ha Hp s' Hrun;
      cbn [run_ticking] in Hrun.
    + injection Hrun as <-. simpl. lia.
    + destruct (run (Advance d :: LoopRecvAfter :: LoopSignal :: r) s0)
        as [s1| |] eqn:H1; cbn [bind] in Hrun; try discriminate.
      destruct (forallb ticking r) eqn:Hint; cbn [andb] in Hrun;
        try discriminate.
      destruct (saturated s1) eqn:Hq; try discriminate.
      destruct (ticking_round d r s0 s1 Ha Hp H1 Hint Hq)
        as (Ha1 & Hp1 & Hi1).
      rewrite (IH s1 Ha1 Hp1 s' Hrun), Hi1. simpl. lia.
  - intros Hq Hd N. revert s0 Ha Hp Hq Hd.
    induction N as [|N IH]; intros s0 Ha Hp Hq Hd.
    + exists s0. simpl. split; [reflexivity|lia].
    + destruct (ticking_round_runs s0 Ha Hq Hd)
        as (s1 & H1 & Hq1 & Hi1 & Hd1).
      destruct (ticking_round _ process_post s0 s1 Ha Hp H1 eq_refl Hq1)
        as (Ha1 & Hp1 & Hinv1).
      destruct (IH s1 Ha1 Hp1 Hq1 Hd1) as (s' & Hs' & Hi').
      exists s'. split; [|lia].
      cbn [repeat run_ticking]. rewrite H1. cbn [bind]. rewrite Hq1.
      replace (forallb ticking process_post) with true by reflexivity.
      cbn [andb]. rewrite <- Hi1. exact Hs'.
Qed.

Lemma throttled_interval_firing_witness :
  exists s0 s',
    run [CallStart; LoopInit; Tick]
      (NewScheduler [WithInterval second; WithThrottle millisecond])
    = Ok s0 /\
    run_ticking [(second, [SourceSend; Tick; ThrottleRecvSignal; LoopRecvT;
                           LoopTarget; SourceSend; Tick]);
                 (2 * second, process_post)%Z;
                 (second, [ThrottleRecvSignal; LoopRecvT; SourceSend; Tick;
                           LoopTarget])] s0 = Ok s' /\
    invocations s' = invocations s0 + 3.
Proof.
  eexists. eexists. split; [by_vm|].
  match goal with
  | |- run_ticking ?rs ?s0 = Ok ?s' /\ _ =>
      assert (Hr : run_ticking rs s0 = Ok s') by by_vm;
      assert (Ha : talive s0 = true) by by_vm;
      assert (Hp : pending s0 = 0) by by_vm;
      exact (conj Hr (proj1 (throttled_interval_firing s0 Ha Hp) rs s' Hr))
  end.
Defined.
